(** * huma: JSON Schema generation from Go types (schema.go)

    A shallow embedding of [GenerateSchema] and of the library calls it
    makes ([strings.Split], [reflect.StructTag.Lookup], [strconv.Atoi],
    [fmt.Errorf]); [json.Unmarshal] is a parameter of the development.

    The function is given twice: as a pure function from type descriptors
    to schema trees, which the properties are stated on, and with its
    allocations and pointer assignments written out over a store. The
    second is proved to compute the first. *)

From Stdlib Require Import Floats Ascii String ZArith List Lia.
From stdpp Require Import base option list strings gmap fin_maps.

Set Warnings "-register-all,-clear-no-such-hyp".
Local Open Scope Z_scope.
Local Open Scope string_scope.

(** ** Go values of type [interface{}] and [error] *)

(** The dynamic values that reach a [Schema]: enum tokens and verbatim
    examples are strings; every other constructor is what [json.Unmarshal]
    stores into an [interface{}]. [ANil] is the nil interface. *)
Inductive any : Type :=
| ANil
| ABool (b : bool)
| ANumber (f : float)
| AString (s : string)
| AArray (l : list any)
| AObject (m : gmap string any).

(** The two failures of [strconv]. *)
Inductive numErr := ErrSyntax | ErrRange.

(** Values of Go's [error] interface met on the paths of [GenerateSchema]. *)
Inductive error : Type :=
| Errorf (msg : string)                          (* fmt.Errorf(...) *)
| NumError (Func Num : string) (Err : numErr)    (* *strconv.NumError *)
| SyntaxError (msg : string) (Offset : Z)        (* *json.SyntaxError *)
| UnmarshalTypeError (Value : string) (Offset : Z). (* *json.UnmarshalTypeError *)

(** ** package strings *)
Module strings.

(** [strings.Split(s, sep)] for a separator of one byte, which is how the
    source calls it ([","]). The result is never empty: [Split "" ","] is
    [[""]]. *)
Fixpoint Split (s : string) (sep : ascii) : list string :=
  match s with
  | EmptyString => [EmptyString]
  | String c rest =>
      if Ascii.eqb c sep then EmptyString :: Split rest sep
      else match Split rest sep with
           | h :: t => String c h :: t
           | [] => [String c EmptyString]
           end
  end.

End strings.

(** ** package strconv *)
Module strconv.

(** Width of Go's [int] (64-bit platforms). *)
Definition intSize : Z := 64.

Definition isDigit (c : ascii) : bool :=
  let n := Z.of_nat (nat_of_ascii c) in (48 <=? n)%Z && (n <=? 57)%Z.

Definition digitVal (c : ascii) : Z := Z.of_nat (nat_of_ascii c) - 48.

(** The digit loop of [ParseUint(s, 10, 64)]: [inl n] is the value read,
    [inr e] the failure. A byte that is not a decimal digit is a syntax
    error; the value leaving 64 bits is a range error, reported at the digit
    where it happens (later bytes are not looked at). *)
Fixpoint parseDigits (s : string) (n : Z) : Z + numErr :=
  match s with
  | EmptyString => inl n
  | String c rest =>
      if isDigit c then
        let n1 := n * 10 + digitVal c in
        if (2 ^ 64 <=? n1)%Z then inr ErrRange else parseDigits rest n1
      else inr ErrSyntax
  end.

(** [strconv.Atoi]: an optional sign, then one or more decimal digits; the
    value must fit [int]. The error is a [*NumError] with [Func = "Atoi"] and
    [Num] the whole input text. The fast path of the Go function (short
    inputs) and its slow path ([ParseInt(s, 10, 0)]) agree with this. *)
Definition Atoi (s : string) : Z * option error :=
  let fail (e : numErr) (v : Z) := (v, Some (NumError "Atoi" s e)) in
  let cutoff := 2 ^ (intSize - 1) in
  match s with
  | EmptyString => fail ErrSyntax 0
  | String c rest =>
      let neg := Ascii.eqb c "-"%char in
      let digits := if neg || Ascii.eqb c "+"%char then rest else s in
      match digits with
      | EmptyString => fail ErrSyntax 0
      | _ =>
          match parseDigits digits 0 with
          | inr ErrSyntax => fail ErrSyntax 0
          | inr ErrRange => if neg then fail ErrRange (- cutoff) else fail ErrRange (cutoff - 1)
          | inl un =>
              if negb neg && (cutoff <=? un)%Z then fail ErrRange (cutoff - 1)
              else if neg && (cutoff <? un)%Z then fail ErrRange (- cutoff)
              else (if neg then - un else un, None)
          end
      end
  end.

End strconv.

(** ** package reflect *)
Module reflect.

(** [reflect.StructTag]: the [key:"value"] pairs of a field's tag, in the
    order written. [Lookup] scans the tag text from the left and answers
    with the value of the first pair whose key matches; the list holds the
    pairs that scan reads. *)
Definition StructTag := list (string * string).

(** [tag.Lookup(key)]: the value of the first pair with that key. *)
Fixpoint Lookup (tag : StructTag) (key : string) : option string :=
  match tag with
  | [] => None
  | (k, v) :: rest => if String.eqb k key then Some v else Lookup rest key
  end.

(** [tag.Get(key)]: the value, or the empty string when the key is absent. *)
Definition Get (tag : StructTag) (key : string) : string :=
  match Lookup tag key with Some v => v | None => "" end.

(** [reflect.StructField], over the type of type descriptors. *)
Record StructField (T : Type) : Type := mkField {
  Name : string;
  Type_ : T;
  Tag : StructTag
}.
Arguments mkField {T} _ _ _.
Arguments Name {T} _.
Arguments Type_ {T} _.
Arguments Tag {T} _.

(** [reflect.Kind] of the types that have no field or element the walk looks
    at. [Struct], [Map], [Slice], [Array] and [Ptr] are the constructors of
    [Typ] below. *)
Inductive Kind :=
| Bool
| Int | Int8 | Int16 | Int32 | Int64
| Uint | Uint8 | Uint16 | Uint32 | Uint64 | Uintptr
| Float32 | Float64
| Complex64 | Complex128
| Chan | Func | Interface
| String_
| UnsafePointer.

(** [Kind.String()]. *)
Definition Kind_String (k : Kind) : string :=
  match k with
  | Bool => "bool"
  | Int => "int" | Int8 => "int8" | Int16 => "int16" | Int32 => "int32" | Int64 => "int64"
  | Uint => "uint" | Uint8 => "uint8" | Uint16 => "uint16" | Uint32 => "uint32"
  | Uint64 => "uint64" | Uintptr => "uintptr"
  | Float32 => "float32" | Float64 => "float64"
  | Complex64 => "complex64" | Complex128 => "complex128"
  | Chan => "chan" | Func => "func" | Interface => "interface"
  | String_ => "string"
  | UnsafePointer => "unsafe.Pointer"
  end.

(** A [reflect.Type]: a finite type descriptor. [Leaf k str] is a type of
    kind [k] whose [String()] is [str]. A Go type that contains itself is
    not a value of this type; [GenerateSchema] does not return on one. *)
Inductive Typ : Type :=
| Leaf (k : Kind) (str : string)
| StructOf (fields : list (StructField Typ))
| MapOf (key elem : Typ)
| SliceOf (elem : Typ)
| ArrayOf (len : Z) (elem : Typ)
| PtrOf (elem : Typ).

End reflect.

Import reflect.

(** ** The Schema struct *)

(** [Schema]. A nil pointer is [None]; a nil map or slice is the empty one
    (the source never stores an empty non-nil map or slice: see the guards
    on [len] before [Properties] and [Required] are assigned, and [Split]
    yields at least one enum token). *)
Inductive Schema : Type := mkSchema {
  Type'       : string;
  Description : string;
  Items       : option Schema;
  Properties  : gmap string Schema;
  Required    : list string;
  Format      : string;
  Enum        : list any;
  Default     : any;
  Example     : any;
  Minimum     : option Z;
  Maximum     : option Z
}.

(** [&Schema{}]: every field at its zero value. *)
Definition emptySchema : Schema :=
  mkSchema "" "" None ∅ [] "" [] ANil ANil None None.

Definition setType (v : string) (s : Schema) : Schema :=
  mkSchema v (Description s) (Items s) (Properties s) (Required s) (Format s)
           (Enum s) (Default s) (Example s) (Minimum s) (Maximum s).
Definition setDescription (v : string) (s : Schema) : Schema :=
  mkSchema (Type' s) v (Items s) (Properties s) (Required s) (Format s)
           (Enum s) (Default s) (Example s) (Minimum s) (Maximum s).
Definition setItems (v : option Schema) (s : Schema) : Schema :=
  mkSchema (Type' s) (Description s) v (Properties s) (Required s) (Format s)
           (Enum s) (Default s) (Example s) (Minimum s) (Maximum s).
Definition setProperties (v : gmap string Schema) (s : Schema) : Schema :=
  mkSchema (Type' s) (Description s) (Items s) v (Required s) (Format s)
           (Enum s) (Default s) (Example s) (Minimum s) (Maximum s).
Definition setRequired (v : list string) (s : Schema) : Schema :=
  mkSchema (Type' s) (Description s) (Items s) (Properties s) v (Format s)
           (Enum s) (Default s) (Example s) (Minimum s) (Maximum s).
Definition setEnum (v : list any) (s : Schema) : Schema :=
  mkSchema (Type' s) (Description s) (Items s) (Properties s) (Required s) (Format s)
           v (Default s) (Example s) (Minimum s) (Maximum s).
Definition setExample (v : any) (s : Schema) : Schema :=
  mkSchema (Type' s) (Description s) (Items s) (Properties s) (Required s) (Format s)
           (Enum s) (Default s) v (Minimum s) (Maximum s).
Definition setMinimum (v : option Z) (s : Schema) : Schema :=
  mkSchema (Type' s) (Description s) (Items s) (Properties s) (Required s) (Format s)
           (Enum s) (Default s) (Example s) v (Maximum s).
Definition setMaximum (v : option Z) (s : Schema) : Schema :=
  mkSchema (Type' s) (Description s) (Items s) (Properties s) (Required s) (Format s)
           (Enum s) (Default s) (Example s) (Minimum s) v.

(** ** GenerateSchema *)

Section Builder.

(** [json.Unmarshal([]byte(e), &v)] for [v] of type [interface{}]: the value
    left in [v] and the error returned. *)
Variable Unmarshal : string -> any * option error.

(** Line 42: [strings.Split(f.Tag.Get("json"), ",")]. *)
Definition jsonTags (f : StructField Typ) : list string :=
  strings.Split (Get (Tag f) "json") ","%char.

(** Lines 44-47: [name := f.Name; if len(jsonTags) > 0 { name = jsonTags[0] }]. *)
Definition fieldName (f : StructField Typ) : string :=
  match jsonTags f with
  | n :: _ => n
  | [] => Name f
  end.

(** Lines 95-100: the scan of [jsonTags[1:]] for ["omitempty"]. *)
Definition optional (f : StructField Typ) : bool :=
  fold_left (fun opt tag => if String.eqb tag "omitempty" then true else opt)
            (tl (jsonTags f)) false.

(** Lines 59-65: the enum tokens, appended one by one as strings. *)
Definition enumOf (e : string) : list any :=
  fold_left (fun acc v => (acc ++ [AString v])%list) (strings.Split e ","%char) [].

(** Lines 55-93: the refinement of the child node [s] by the tags of its
    field. [inr err] is the early [return nil, err]. *)
Definition applyTags (tag : StructTag) (s : Schema) : Schema + error :=
  let s := match Lookup tag "description" with
           | Some d => setDescription d s
           | None => s
           end in
  let s := match Lookup tag "enum" with
           | Some e => setEnum (enumOf e) s
           | None => s
           end in
  match (match Lookup tag "minimum" with
         | Some d => match strconv.Atoi d with
                     | (_, Some err) => inr err
                     | (min, None) => inl (setMinimum (Some min) s)
                     end
         | None => inl s
         end) with
  | inr err => inr err
  | inl s =>
  match (match Lookup tag "maximum" with
         | Some d => match strconv.Atoi d with
                     | (_, Some err) => inr err
                     | (max, None) => inl (setMaximum (Some max) s)
                     end
         | None => inl s
         end) with
  | inr err => inr err
  | inl s =>
  match Lookup tag "example" with
  | Some e =>
      if String.eqb (Type' s) "string" then inl (setExample (AString e) s)
      else match Unmarshal e with
           | (_, Some err) => inr err
           | (v, None) => inl (setExample v s)
           end
  | None => inl s
  end end end.

(** Lines 49-93 of the loop body: the child node of field [f], built by the
    recursive call [gen] and refined by the tags. [inr r] is an early
    [return r]. A nil node without an error, which [GenerateSchema] never
    returns (see [GenerateSchema_node_or_error]), would be dereferenced: that
    outcome is [(None, None)]. *)
Definition fieldNode (gen : Typ -> option Schema * option error)
    (f : StructField Typ) : Schema + (option Schema * option error) :=
  match gen (Type_ f) with
  | (_, Some err) => inr (None, Some err)
  | (None, None) => inr (None, None)
  | (Some s, None) =>
      match applyTags (Tag f) s with
      | inr err => inr (None, Some err)
      | inl s => inl s
      end
  end.

(** Lines 39-104: the loop over the fields, with the [properties] and
    [required] built so far. [inl] is the normal end of the loop. The map
    holds the pointer [s], so the refinements made after
    [properties[name] = s] are seen through it: the model stores the refined
    node. *)
Fixpoint fieldsLoop (gen : Typ -> option Schema * option error)
    (fs : list (StructField Typ))
    (properties : gmap string Schema) (required : list string)
    : (gmap string Schema * list string) + (option Schema * option error) :=
  match fs with
  | [] => inl (properties, required)
  | f :: rest =>
      let name := fieldName f in
      match fieldNode gen f with
      | inr r => inr r
      | inl s =>
          let properties := <[name := s]> properties in
          let required := if optional f then required else (required ++ [name])%list in
          fieldsLoop gen rest properties required
      end
  end.

(** Lines 123-143: the kinds without fields or elements. *)
Definition leafSchema (k : Kind) (str : string) : option Schema * option error :=
  match k with
  | Int | Int8 | Int16 | Int32 | Int64 =>
      (Some (setType "integer" emptySchema), None)
  | Uint | Uint8 | Uint16 | Uint32 | Uint64 =>
      (Some (setMinimum (Some 0) (setType "integer" emptySchema)), None)
  | Float32 | Float64 => (Some (setType "number" emptySchema), None)
  | Bool => (Some (setType "boolean" emptySchema), None)
  | String_ => (Some (setType "string" emptySchema), None)
  | _ => (None, Some (Errorf ("unsupported type " ++ Kind_String k ++ " from " ++ str)))
  end.

(** Lines 29-147. The [switch] on [t.Kind()] is the match on the descriptor. *)
Fixpoint GenerateSchema (t : Typ) : option Schema * option error :=
  match t with
  | StructOf fields =>
      match fieldsLoop GenerateSchema fields ∅ [] with
      | inr r => r
      | inl (properties, required) =>
          let schema := setType "object" emptySchema in
          let schema := if (0 <? Z.of_nat (size properties))%Z
                        then setProperties properties schema else schema in
          let schema := if (0 <? Z.of_nat (length required))%Z
                        then setRequired required schema else schema in
          (Some schema, None)
      end
  | MapOf _ _ => (Some emptySchema, None)
  | SliceOf elem | ArrayOf _ elem =>
      match GenerateSchema elem with
      | (_, Some err) => (None, Some err)
      | (s, None) => (Some (setItems s (setType "array" emptySchema)), None)
      end
  | Leaf k str => leafSchema k str
  | PtrOf elem => GenerateSchema elem
  end.

End Builder.

(** ** GenerateSchema on the heap

    The same function with its allocations and assignments written out. A
    [*Schema] is an address in a store of nodes; [&Schema{...}] allocates a
    fresh address; an assignment through a pointer updates the node at that
    address. The pure [GenerateSchema] above is what the returned pointer
    reads back to ([GenerateSchemaM_refines]). *)

Abbreviation ptr := nat.

(** A [Schema] struct in memory: its children are pointers. *)
Record Node : Type := mkNode {
  nType        : string;
  nDescription : string;
  nItems       : option ptr;
  nProperties  : gmap string ptr;
  nRequired    : list string;
  nFormat      : string;
  nEnum        : list any;
  nDefault     : any;
  nExample     : any;
  nMinimum     : option Z;
  nMaximum     : option Z
}.

Definition emptyNode : Node :=
  mkNode "" "" None ∅ [] "" [] ANil ANil None None.

Definition nsetType (v : string) (n : Node) : Node :=
  mkNode v (nDescription n) (nItems n) (nProperties n) (nRequired n) (nFormat n)
         (nEnum n) (nDefault n) (nExample n) (nMinimum n) (nMaximum n).
Definition nsetDescription (v : string) (n : Node) : Node :=
  mkNode (nType n) v (nItems n) (nProperties n) (nRequired n) (nFormat n)
         (nEnum n) (nDefault n) (nExample n) (nMinimum n) (nMaximum n).
Definition nsetItems (v : option ptr) (n : Node) : Node :=
  mkNode (nType n) (nDescription n) v (nProperties n) (nRequired n) (nFormat n)
         (nEnum n) (nDefault n) (nExample n) (nMinimum n) (nMaximum n).
Definition nsetProperties (v : gmap string ptr) (n : Node) : Node :=
  mkNode (nType n) (nDescription n) (nItems n) v (nRequired n) (nFormat n)
         (nEnum n) (nDefault n) (nExample n) (nMinimum n) (nMaximum n).
Definition nsetRequired (v : list string) (n : Node) : Node :=
  mkNode (nType n) (nDescription n) (nItems n) (nProperties n) v (nFormat n)
         (nEnum n) (nDefault n) (nExample n) (nMinimum n) (nMaximum n).
Definition nsetEnum (v : list any) (n : Node) : Node :=
  mkNode (nType n) (nDescription n) (nItems n) (nProperties n) (nRequired n) (nFormat n)
         v (nDefault n) (nExample n) (nMinimum n) (nMaximum n).
Definition nsetExample (v : any) (n : Node) : Node :=
  mkNode (nType n) (nDescription n) (nItems n) (nProperties n) (nRequired n) (nFormat n)
         (nEnum n) (nDefault n) v (nMinimum n) (nMaximum n).
Definition nsetMinimum (v : option Z) (n : Node) : Node :=
  mkNode (nType n) (nDescription n) (nItems n) (nProperties n) (nRequired n) (nFormat n)
         (nEnum n) (nDefault n) (nExample n) v (nMaximum n).
Definition nsetMaximum (v : option Z) (n : Node) : Node :=
  mkNode (nType n) (nDescription n) (nItems n) (nProperties n) (nRequired n) (nFormat n)
         (nEnum n) (nDefault n) (nExample n) (nMinimum n) v.

(** The store: the node at address [p] is the [p]-th element. *)
Abbreviation store := (list Node).

(** [&Schema{...}]: a fresh address, the next one. *)
Definition alloc (n : Node) (h : store) : ptr * store :=
  (length h, (h ++ [n])%list).

(** [p.field = v]: an assignment through the pointer [p]. *)
Definition update (p : ptr) (g : Node -> Node) (h : store) : store :=
  alter g p h.

(** [p.Type]: a read through the pointer [p]. *)
Definition loadType (p : ptr) (h : store) : string :=
  match h !! p with
  | Some n => nType n
  | None => ""
  end.

Section HeapBuilder.

Variable Unmarshal : string -> any * option error.

(** Lines 55-93 on the node at [s]: the error returned early, if any, and the
    store left. *)
Definition applyTagsM (tag : StructTag) (s : ptr) (h : store)
    : option error * store :=
  let h := match Lookup tag "description" with
           | Some d => update s (nsetDescription d) h
           | None => h
           end in
  let h := match Lookup tag "enum" with
           | Some e => update s (nsetEnum (enumOf e)) h
           | None => h
           end in
  match (match Lookup tag "minimum" with
         | Some d => match strconv.Atoi d with
                     | (_, Some err) => inr err
                     | (min, None) => inl (update s (nsetMinimum (Some min)) h)
                     end
         | None => inl h
         end) with
  | inr err => (Some err, h)
  | inl h =>
  match (match Lookup tag "maximum" with
         | Some d => match strconv.Atoi d with
                     | (_, Some err) => inr err
                     | (max, None) => inl (update s (nsetMaximum (Some max)) h)
                     end
         | None => inl h
         end) with
  | inr err => (Some err, h)
  | inl h =>
  match Lookup tag "example" with
  | Some e =>
      if String.eqb (loadType s h) "string"
      then (None, update s (nsetExample (AString e)) h)
      else match Unmarshal e with
           | (_, Some err) => (Some err, h)
           | (v, None) => (None, update s (nsetExample v) h)
           end
  | None => (None, h)
  end end end.

(** Lines 39-104: [properties[name] = s] stores the pointer, before the tags
    are applied to the node it points to. *)
Fixpoint fieldsLoopM (gen : Typ -> store -> (option ptr * option error) * store)
    (fs : list (StructField Typ))
    (properties : gmap string ptr) (required : list string) (h : store)
    : ((gmap string ptr * list string) + (option ptr * option error)) * store :=
  match fs with
  | [] => (inl (properties, required), h)
  | f :: rest =>
      let name := fieldName f in
      match gen (Type_ f) h with
      | ((_, Some err), h) => (inr (None, Some err), h)
      | ((None, None), h) => (inr (None, None), h)
      | ((Some s, None), h) =>
          let properties := <[name := s]> properties in
          match applyTagsM (Tag f) s h with
          | (Some err, h) => (inr (None, Some err), h)
          | (None, h) =>
              let required := if optional f then required else (required ++ [name])%list in
              fieldsLoopM gen rest properties required h
          end
      end
  end.

(** Lines 123-139: each of these arms returns a node of its own. *)
Definition leafNode (k : Kind) (str : string) : option Node * option error :=
  match k with
  | Int | Int8 | Int16 | Int32 | Int64 => (Some (nsetType "integer" emptyNode), None)
  | Uint | Uint8 | Uint16 | Uint32 | Uint64 =>
      (Some (nsetMinimum (Some 0) (nsetType "integer" emptyNode)), None)
  | Float32 | Float64 => (Some (nsetType "number" emptyNode), None)
  | Bool => (Some (nsetType "boolean" emptyNode), None)
  | String_ => (Some (nsetType "string" emptyNode), None)
  | _ => (None, Some (Errorf ("unsupported type " ++ Kind_String k ++ " from " ++ str)))
  end.

(** Lines 29-147, with line 30, [schema := &Schema{}], first. *)
Fixpoint GenerateSchemaM (t : Typ) (h : store)
    : (option ptr * option error) * store :=
  let '(schema, h) := alloc emptyNode h in
  match t with
  | StructOf fields =>
      let h := update schema (nsetType "object") h in
      match fieldsLoopM GenerateSchemaM fields ∅ [] h with
      | (inr res, h) => (res, h)
      | (inl (properties, required), h) =>
          let h := if (0 <? Z.of_nat (size properties))%Z
                   then update schema (nsetProperties properties) h else h in
          let h := if (0 <? Z.of_nat (length required))%Z
                   then update schema (nsetRequired required) h else h in
          ((Some schema, None), h)
      end
  | MapOf _ _ => ((Some schema, None), h)
  | SliceOf elem | ArrayOf _ elem =>
      let h := update schema (nsetType "array") h in
      match GenerateSchemaM elem h with
      | ((_, Some err), h) => ((None, Some err), h)
      | ((s, None), h) => ((Some schema, None), update schema (nsetItems s) h)
      end
  | Leaf k str =>
      match leafNode k str with
      | (Some n, _) => let '(p, h) := alloc n h in ((Some p, None), h)
      | (None, err) => ((None, err), h)
      end
  | PtrOf elem => GenerateSchemaM elem h
  end.

End HeapBuilder.

(** ** Reading a tree back from the store *)

(** The attributes of a node that are not pointers, as a childless [Schema]. *)
Definition scalarsOf (n : Node) : Schema :=
  mkSchema (nType n) (nDescription n) None ∅ (nRequired n) (nFormat n)
           (nEnum n) (nDefault n) (nExample n) (nMinimum n) (nMaximum n).

(** A tree without its children. *)
Definition scalars (s : Schema) : Schema :=
  setItems None (setProperties ∅ s).

(** A pointer field against a child: both nil, or both present and related. *)
Definition childRel (R : ptr -> Schema -> Prop)
    (o : option ptr) (os : option Schema) : Prop :=
  match o, os with
  | Some q, Some s => R q s
  | None, None => True
  | _, _ => False
  end.

(** [readsN d h p s]: the nodes reachable from [p] in [h] form the tree [s],
    of depth at most [d]; every child lies at a higher address than its
    parent. *)
Fixpoint readsN (d : nat) (h : store) (p : ptr) (s : Schema) : Prop :=
  match d with
  | O => False
  | S d' =>
      exists n, h !! p = Some n /\ scalarsOf n = scalars s /\
        childRel (fun q c => (p < q)%nat /\ readsN d' h q c) (nItems n) (Items s) /\
        forall k, childRel (fun q c => (p < q)%nat /\ readsN d' h q c)
                           (nProperties n !! k) (Properties s !! k)
  end.

(** [reads h p s]: the pointer [p] reads back, in [h], to the tree [s]. Two
    pointers are deep-equal when they read back to the same tree. *)
Definition reads (h : store) (p : ptr) (s : Schema) : Prop :=
  exists d, readsN d h p s.

(** [keeps q h h']: every node of [h] at address [q] or above is still there,
    unchanged, in [h']. *)
Definition keeps (q : ptr) (h h' : store) : Prop :=
  forall x n, (q <= x)%nat -> h !! x = Some n -> h' !! x = Some n.

(** ** Vocabulary of the statements *)


(** The kinds no arm of the [switch] names: they reach [default] (line 142). *)
Definition unsupported (k : Kind) : bool :=
  match k with
  | Uintptr | Complex64 | Complex128 | Chan | Func | Interface | UnsafePointer => true
  | _ => false
  end.

(** [nestedIn u t]: the descriptor [u] is [t] or lies inside [t] along struct
    fields, slice and array elements and pointers, the positions the walk
    recurses into. Keys and elements of maps are not such positions. *)
Inductive nestedIn (u : Typ) : Typ -> Prop :=
| nested_here : nestedIn u u
| nested_field fs f : In f fs -> nestedIn u (Type_ f) -> nestedIn u (StructOf fs)
| nested_slice elem : nestedIn u elem -> nestedIn u (SliceOf elem)
| nested_array n elem : nestedIn u elem -> nestedIn u (ArrayOf n elem)
| nested_ptr elem : nestedIn u elem -> nestedIn u (PtrOf elem).

(** The resolved names of the fields that are not marked [omitempty], in
    declaration order. *)
Definition requiredNames (fs : list (StructField Typ)) : list string :=
  map fieldName (List.filter (fun f => negb (optional f)) fs).

(** A decoder for the closed examples of this file. On the four texts it
    names it is [json.Unmarshal]: [true], [null] and [42] decode, and the
    truncated object [{] is the syntax error encoding/json reports for it
    (unexpected end of input, at offset 1). The examples use no other text,
    so the last line is never reached by them; every theorem below is stated
    for an arbitrary decoder. *)
Definition exampleUnmarshal (e : string) : any * option error :=
  if String.eqb e "true" then (ABool true, None)
  else if String.eqb e "null" then (ANil, None)
  else if String.eqb e "42" then (ANumber 42%float, None)
  else if String.eqb e "{" then (ANil, Some (SyntaxError "unexpected end of JSON input" 1))
  else (ANil, Some (SyntaxError "text outside the examples" 0)).

(** Type descriptors of the closed examples. *)
Module Examples.

Definition intT : Typ := Leaf Int "int".
Definition uintT : Typ := Leaf Uint "uint".
Definition stringT : Typ := Leaf String_ "string".
Definition chanT : Typ := Leaf Chan "chan int".

(** [struct { name string; age int `json:"age,omitempty"` }] *)
Definition person : Typ :=
  StructOf [mkField "name" stringT [];
            mkField "age" intT [("json", "age,omitempty")]].

(** [struct { Count uint `json:"count" minimum:"5" maximum:"10"` }] *)
Definition bounded : Typ :=
  StructOf [mkField "Count" uintT
              [("json", "count"); ("minimum", "5"); ("maximum", "10")]].



(** [struct { Count int `json:"count" example:"42"`;
             Label string `json:"label" example:"42"` }] *)
Definition withExamples : Typ :=
  StructOf [mkField "Count" intT [("json", "count"); ("example", "42")];
            mkField "Label" stringT [("json", "label"); ("example", "42")]].


(** [struct { ID int `json:"id"`; Pipes []chan int `json:"pipes"` }] *)
Definition withChannel : Typ :=
  StructOf [mkField "ID" intT [("json", "id")];
            mkField "Pipes" (SliceOf chanT) [("json", "pipes")]].

(** [struct { Pipes map[string]chan int `json:"pipes"` }] *)
Definition underMap : Typ :=
  StructOf [mkField "Pipes" (MapOf stringT chanT) [("json", "pipes")]].

(** [struct { ID int `json:"id" minimum:"abc"`; Pipe chan int `json:"pipe"` }] *)
Definition badThenChannel : Typ :=
  StructOf [mkField "ID" intT [("json", "id"); ("minimum", "abc")];
            mkField "Pipe" chanT [("json", "pipe")]].

(** [struct { Next *int `json:"next"`; Prev *int `json:"prev,omitempty"` }] *)
Definition withPointers : Typ :=
  StructOf [mkField "Next" (PtrOf intT) [("json", "next")];
            mkField "Prev" (PtrOf intT) [("json", "prev,omitempty")]].

(** [struct { Secret string `json:"-"` }] *)
Definition hidden : Typ :=
  StructOf [mkField "Secret" stringT [("json", "-")]].

End Examples.

(** The [minimum] and [maximum] tags of a field, where present, are texts
    [Atoi] accepts. *)
Definition boundsParse (tag : StructTag) : Prop :=
  (forall d, Lookup tag "minimum" = Some d -> snd (strconv.Atoi d) = None) /\
  (forall d, Lookup tag "maximum" = Some d -> snd (strconv.Atoi d) = None).

(** The bound a tag sets: the parsed value when the tag is present, else the
    bound [dflt] the node already has. *)
Definition boundOf (tag : StructTag) (key : string) (dflt : option Z) : option Z :=
  match Lookup tag key with
  | Some d => Some (fst (strconv.Atoi d))
  | None => dflt
  end.

(** [refines h res pure]: the outcome [res] of a run from the store [h]
    against the outcome [pure] of the pure function. *)
Definition refines (h : store) (res : (option ptr * option error) * store)
    (pure : option Schema * option error) : Prop :=
  keeps 0%nat h (snd res) /\
  match fst res, pure with
  | (Some p, None), (Some s, None) => (length h <= p)%nat /\ reads (snd res) p s
  | (None, Some e), (None, Some e') => e = e'
  | _, _ => False
  end.

(** [tagged p h n s h' s']: from a store [h] whose node [n] at [p] has the
    scalar attributes of [s], assignments of scalar attributes through [p]
    have led to [h'] on the heap and to [s'] on the pure side. Only the node
    at [p] differs, and pointers and children are as before. *)
Definition tagged (p : ptr) (h : store) (n : Node) (s : Schema)
    (h' : store) (s' : Schema) : Prop :=
  exists n', h' = <[p := n']> h /\ scalarsOf n' = scalars s' /\
    nItems n' = nItems n /\ nProperties n' = nProperties n /\
    Items s' = Items s /\ Properties s' = Properties s.

(** [propsRel a d h pm ps]: the pointer map [pm] built by the loop of the
    struct at address [a] reads, entry by entry, to the map [ps]. *)
Definition propsRel (a : ptr) (d : nat) (h : store)
    (pm : gmap string ptr) (ps : gmap string Schema) : Prop :=
  forall k, childRel (fun q c => (a < q)%nat /\ readsN d h q c) (pm !! k) (ps !! k).

(** [deepEqual h1 p1 h2 p2 s]: the pointer [p1] in [h1] and the pointer [p2]
    in [h2] read back to the same tree, [s]. *)
Definition deepEqual (h1 : store) (p1 : ptr) (h2 : store) (p2 : ptr)
    (s : Schema) : Prop :=
  reads h1 p1 s /\ reads h2 p2 s.

(** A result as the Go function returns it, a pair of a node pointer and an
    error: a node and no error, or an error and no node. *)
Definition nodeOrError (res : option Schema * option error) : Prop :=
  (exists s, res = (Some s, None)) \/ (exists e, res = (None, Some e)).

(** ** Vocabulary of the further properties *)

(** [inTree n s]: the node [n] is [s] itself or lies below it, through
    [Items] and the entries of [Properties]. *)
Inductive inTree (n : Schema) : Schema -> Prop :=
| in_here : inTree n n
| in_items s c : Items s = Some c -> inTree n c -> inTree n s
| in_property s k c : Properties s !! k = Some c -> inTree n c -> inTree n s.

(** The values the source assigns to [Type]; the empty text is the zero
    value, left by the [Map] arm. *)
Definition kindNames : list string :=
  ["object"; "array"; "integer"; "number"; "boolean"; "string"; ""].

(** The attributes of a node agree with its kind: only an array has items,
    only an object has properties or a required list, and the required
    names are keys of the properties. *)
Definition wellKinded (n : Schema) : Prop :=
  In (Type' n) kindNames /\
  (is_Some (Items n) <-> Type' n = "array") /\
  (Properties n <> ∅ -> Type' n = "object") /\
  (Required n <> [] -> Type' n = "object") /\
  (forall x, In x (Required n) -> is_Some (Properties n !! x)).

(** A node no tag has touched: the attributes the tags set are at their zero
    value, but for the minimum 0 of the unsigned kinds. *)
Definition untagged (s : Schema) : Prop :=
  Description s = "" /\ Enum s = [] /\ Example s = ANil /\ Maximum s = None /\
  (Minimum s = None \/ Minimum s = Some 0).

(** A bound that is absent or a value of Go's [int]. *)
Definition inIntRange (o : option Z) : Prop :=
  match o with
  | Some v => - 2 ^ (strconv.intSize - 1) <= v < 2 ^ (strconv.intSize - 1)
  | None => True
  end.

(** [fieldIn f t]: [f] is a field of a struct the walk of [t] reaches. *)
Definition fieldIn (f : StructField Typ) (t : Typ) : Prop :=
  exists fs, nestedIn (StructOf fs) t /\ In f fs.

(** What the loop body asks of a field: its type builds, its bounds are
    texts [Atoi] accepts, and its example, if it has one, is kept verbatim
    (a node of kind string) or is a text the decoder accepts. *)
Definition fieldBuilds (Unmarshal : string -> any * option error)
    (f : StructField Typ) : Prop :=
  exists s, GenerateSchema Unmarshal (Type_ f) = (Some s, None) /\
    boundsParse (Tag f) /\
    forall e, Lookup (Tag f) "example" = Some e ->
              Type' s = "string" \/ snd (Unmarshal e) = None.


(** The text [s] holds the byte [c]. *)
Definition hasByte (c : ascii) (s : string) : Prop :=
  In c (list_ascii_of_string s).

(** The keys of a field's tag that the loop body looks up (lines 42-83). *)
Definition readKeys : list string :=
  ["json"; "description"; "enum"; "minimum"; "maximum"; "example"].

(** Two tags that agree on the keys the loop body looks up. *)
Definition sameReadKeys (tag tag' : StructTag) : Prop :=
  forall key, In key readKeys -> Lookup tag key = Lookup tag' key.

(** The pointer fields of a node, by the name of the edge: [None] is
    [Items], [Some k] the entry [k] of [Properties]. *)
Definition child (n : Node) (e : option string) : option ptr :=
  match e with
  | None => nItems n
  | Some k => nProperties n !! k
  end.

(** [walk h p path q]: following the edges of [path] from the address [p]
    in [h] leads to the address [q]. *)
Inductive walk (h : store) : ptr -> list (option string) -> ptr -> Prop :=
| walk_nil p : walk h p [] p
| walk_cons p n e c path q :
    h !! p = Some n -> child n e = Some c -> walk h c path q ->
    walk h p (e :: path) q.

(** [tree h p lo hi]: the nodes under [p] in [h] form a tree that lies in
    the addresses from [lo] up to [hi]: the subtrees of a node lie above it,
    each in a range of its own, [iv e] for the edge [e]. *)
Inductive tree (h : store) : ptr -> nat -> nat -> Prop :=
| tree_node p lo hi n (iv : option string -> nat * nat) :
    h !! p = Some n ->
    (lo <= p < hi)%nat ->
    (forall e c, child n e = Some c ->
       (p < fst (iv e))%nat /\ (snd (iv e) <= hi)%nat) ->
    (forall e c, child n e = Some c -> tree h c (fst (iv e)) (snd (iv e))) ->
    (forall e1 e2 c1 c2, e1 <> e2 ->
       child n e1 = Some c1 -> child n e2 = Some c2 ->
       (snd (iv e1) <= fst (iv e2))%nat \/ (snd (iv e2) <= fst (iv e1))%nat) ->
    tree h p lo hi.

(** The entries of the pointer map built by the loop of the struct at [a]:
    each is a tree in a range of its own above [a]. *)
Definition entriesApart (a : ptr) (h : store) (pm : gmap string ptr)
    (iv : string -> nat * nat) : Prop :=
  (forall k c, pm !! k = Some c ->
     (a < fst (iv k))%nat /\ (snd (iv k) <= length h)%nat /\
     tree h c (fst (iv k)) (snd (iv k))) /\
  (forall k1 k2 c1 c2, k1 <> k2 -> pm !! k1 = Some c1 -> pm !! k2 = Some c2 ->
     (snd (iv k1) <= fst (iv k2))%nat \/ (snd (iv k2) <= fst (iv k1))%nat).

(** More type descriptors for closed examples. *)
Module Samples.

(** [struct { Tags []uint `json:"tags" description:"labels" maximum:"3"`;
             Owner struct { Name string `json:"name"` } `json:"owner,omitempty"` }] *)
Definition inventory : Typ :=
  StructOf [mkField "Tags" (SliceOf Examples.uintT)
              [("json", "tags"); ("description", "labels"); ("maximum", "3")];
            mkField "Owner"
              (StructOf [mkField "Name" Examples.stringT [("json", "name")]])
              [("json", "owner,omitempty")]].

(** The node of [inventory]. *)
Definition inventoryNode : Schema :=
  setRequired ["tags"]
    (setProperties
       (<["owner" :=
            setRequired ["name"]
              (setProperties (<["name" := setType "string" emptySchema]> ∅)
                 (setType "object" emptySchema))]>
          (<["tags" :=
               setMaximum (Some 3)
                 (setDescription "labels"
                    (setItems (Some (setMinimum (Some 0) (setType "integer" emptySchema)))
                       (setType "array" emptySchema)))]> ∅))
       (setType "object" emptySchema)).

(** [struct { Level int `json:"level" description:"how loud" enum:"1,2,3"` }] *)
Definition volume : Typ :=
  StructOf [mkField "Level" Examples.intT
              [("json", "level"); ("description", "how loud"); ("enum", "1,2,3")]].

(** [struct { A string `json:"x"`; B int `json:"x,omitempty"` }] *)
Definition clash : Typ :=
  StructOf [mkField "A" Examples.stringT [("json", "x")];
            mkField "B" Examples.intT [("json", "x,omitempty")]].

(** The node of [clash]. *)
Definition clashNode : Schema :=
  setRequired ["x"]
    (setProperties
       (<["x" := setType "integer" emptySchema]>
          (<["x" := setType "string" emptySchema]> ∅))
       (setType "object" emptySchema)).

(** A decoder that rejects every text. *)
Definition failingUnmarshal (e : string) : any * option error :=
  (ANil, Some (UnmarshalTypeError e 0)).

End Samples.

(** ** Induction on type descriptors *)

Section TypInduction.

Variable P : Typ -> Prop.
Hypothesis HLeaf : forall k str, P (Leaf k str).
Hypothesis HStruct : forall fs, Forall (fun f => P (Type_ f)) fs -> P (StructOf fs).
Hypothesis HMap : forall key elem, P key -> P elem -> P (MapOf key elem).
Hypothesis HSlice : forall elem, P elem -> P (SliceOf elem).
Hypothesis HArray : forall n elem, P elem -> P (ArrayOf n elem).
Hypothesis HPtr : forall elem, P elem -> P (PtrOf elem).

Fixpoint Typ_fields_ind (t : Typ) : P t :=
  match t with
  | Leaf k str => HLeaf k str
  | StructOf fs =>
      HStruct fs
        ((fix go (l : list (StructField Typ)) : Forall (fun f => P (Type_ f)) l :=
            match l with
            | [] => List.Forall_nil _
            | f :: l' => List.Forall_cons _ f l' (Typ_fields_ind (Type_ f)) (go l')
            end) fs)
  | MapOf key elem => HMap key elem (Typ_fields_ind key) (Typ_fields_ind elem)
  | SliceOf elem => HSlice elem (Typ_fields_ind elem)
  | ArrayOf n elem => HArray n elem (Typ_fields_ind elem)
  | PtrOf elem => HPtr elem (Typ_fields_ind elem)
  end.

End TypInduction.

(** ** Library facts *)

Lemma Split_cons (s : string) (sep : ascii) :
  exists h t, strings.Split s sep = h :: t.
Proof.
  induction s as [|c rest IH]; simpl.
  - eauto.
  - destruct (Ascii.eqb c sep); [eauto|].
    destruct IH as (h & t & ->). eauto.
Qed.

Lemma Split_empty (sep : ascii) : strings.Split "" sep = [""].
Proof. reflexivity. Qed.

Lemma Lookup_Get_None (tag : StructTag) (key : string) :
  Lookup tag key = None -> Get tag key = "".
Proof. unfold Get. now intros ->. Qed.


Lemma Atoi_abc : strconv.Atoi "abc" = (0, Some (NumError "Atoi" "abc" ErrSyntax)).
Proof. reflexivity. Qed.

(** ** The scan for [omitempty] *)

Lemma optional_scan (tags : list string) (b : bool) :
  fold_left (fun opt tag => if String.eqb tag "omitempty" then true else opt) tags b
  = b || existsb (fun tag => String.eqb tag "omitempty") tags.
Proof.
  revert b. induction tags as [|t ts IH]; intros b; simpl.
  - now rewrite orb_false_r.
  - rewrite IH. destruct (String.eqb t "omitempty"), b; simpl; auto.
Qed.

Lemma optional_spec (f : StructField Typ) :
  optional f = true <-> In "omitempty" (tl (jsonTags f)).
Proof.
  unfold optional. rewrite optional_scan. simpl.
  rewrite existsb_exists. split.
  - intros (x & Hx & Heq). apply String.eqb_eq in Heq. now subst.
  - intros H. exists "omitempty". split; [exact H | apply String.eqb_refl].
Qed.

Lemma fieldName_hd (f : StructField Typ) :
  fieldName f = hd "" (jsonTags f).
Proof.
  unfold fieldName, jsonTags.
  destruct (Split_cons (Get (Tag f) "json") ","%char) as (h & t & ->). reflexivity.
Qed.

(** ** The loop over the fields *)

Section Loop.

Variable Unmarshal : string -> any * option error.
Variable gen : Typ -> option Schema * option error.

Implicit Types (f g : StructField Typ) (fs pre post : list (StructField Typ)).
Implicit Types (p : gmap string Schema) (r : list string).

Lemma fieldsLoop_cons f fs p r :
  fieldsLoop Unmarshal gen (f :: fs) p r =
  match fieldNode Unmarshal gen f with
  | inr x => inr x
  | inl s => fieldsLoop Unmarshal gen fs (<[fieldName f := s]> p)
               (if optional f then r else (r ++ [fieldName f])%list)
  end.
Proof. reflexivity. Qed.

Lemma fieldsLoop_app pre post p r :
  fieldsLoop Unmarshal gen (pre ++ post) p r =
  match fieldsLoop Unmarshal gen pre p r with
  | inl (p', r') => fieldsLoop Unmarshal gen post p' r'
  | inr x => inr x
  end.
Proof.
  revert p r. induction pre as [|f pre IH]; intros p r.
  - reflexivity.
  - rewrite <- app_comm_cons, !fieldsLoop_cons.
    destruct (fieldNode Unmarshal gen f); [apply IH | reflexivity].
Qed.

(** An early return of the loop carries no node. *)
Lemma fieldNode_inr_None f o e :
  fieldNode Unmarshal gen f = inr (o, e) -> o = None.
Proof.
  unfold fieldNode. destruct (gen (Type_ f)) as [[s|] [err|]];
    try (intros [= <- _]; reflexivity).
  destruct (applyTags Unmarshal (Tag f) s); [discriminate|].
  intros [= <- _]; reflexivity.
Qed.

Lemma fieldsLoop_inr_None fs p r o e :
  fieldsLoop Unmarshal gen fs p r = inr (o, e) -> o = None.
Proof.
  revert p r. induction fs as [|f fs IH]; intros p r; [discriminate|].
  rewrite fieldsLoop_cons.
  destruct (fieldNode Unmarshal gen f) eqn:Hn; [apply IH|].
  intros [= ->]. eapply fieldNode_inr_None; eauto.
Qed.

(** The loop ends normally exactly when every field yields a node. *)
Lemma fieldsLoop_inl_nodes fs p r p' r' :
  fieldsLoop Unmarshal gen fs p r = inl (p', r') ->
  Forall (fun f => exists s, fieldNode Unmarshal gen f = inl s) fs.
Proof.
  revert p r. induction fs as [|f fs IH]; intros p r; [constructor|].
  rewrite fieldsLoop_cons.
  destruct (fieldNode Unmarshal gen f) eqn:Hn; [|discriminate].
  intros H. constructor; eauto.
Qed.

Lemma fieldsLoop_nodes_inl fs p r :
  Forall (fun f => exists s, fieldNode Unmarshal gen f = inl s) fs ->
  exists p' r', fieldsLoop Unmarshal gen fs p r = inl (p', r').
Proof.
  intros H. revert p r. induction H as [|f fs [s Hs] _ IH]; intros p r.
  - simpl. eauto.
  - rewrite fieldsLoop_cons, Hs. apply IH.
Qed.

(** [required] grows by the names of the fields not marked [omitempty]. *)
Lemma fieldsLoop_required fs p r p' r' :
  fieldsLoop Unmarshal gen fs p r = inl (p', r') ->
  r' = (r ++ requiredNames fs)%list.
Proof.
  revert p r. induction fs as [|f fs IH]; intros p r.
  - simpl. intros [= _ <-]. unfold requiredNames. simpl. now rewrite app_nil_r.
  - rewrite fieldsLoop_cons.
    destruct (fieldNode Unmarshal gen f); [|discriminate].
    intros H. apply IH in H. subst r'. unfold requiredNames. simpl.
    destruct (optional f); simpl; [reflexivity|].
    now rewrite <- app_assoc.
Qed.

(** The keys of [properties] grow by the resolved names of the fields. *)
Lemma fieldsLoop_dom fs p r p' r' :
  fieldsLoop Unmarshal gen fs p r = inl (p', r') ->
  dom p' = dom p ∪ list_to_set (map fieldName fs).
Proof.
  revert p r. induction fs as [|f fs IH]; intros p r.
  - simpl. intros [= <- _]. set_solver.
  - rewrite fieldsLoop_cons.
    destruct (fieldNode Unmarshal gen f); [|discriminate].
    intros H. apply IH in H. rewrite H, dom_insert_L. simpl. set_solver.
Qed.

(** A name that no field resolves to keeps its entry. *)
Lemma fieldsLoop_lookup_other fs p r p' r' n :
  fieldsLoop Unmarshal gen fs p r = inl (p', r') ->
  Forall (fun g => fieldName g <> n) fs ->
  p' !! n = p !! n.
Proof.
  revert p r. induction fs as [|f fs IH]; intros p r.
  - simpl. now intros [= <- _] _.
  - rewrite fieldsLoop_cons.
    destruct (fieldNode Unmarshal gen f); [|discriminate].
    intros H Hall. inversion Hall; subst.
    rewrite (IH _ _ H) by assumption. now apply lookup_insert_ne.
Qed.

(** The entry of a field that no later field shadows is its refined node. *)
Lemma fieldsLoop_lookup pre f post p r p' r' :
  fieldsLoop Unmarshal gen (pre ++ f :: post) p r = inl (p', r') ->
  Forall (fun g => fieldName g <> fieldName f) post ->
  exists s, fieldNode Unmarshal gen f = inl s /\ p' !! fieldName f = Some s.
Proof.
  rewrite fieldsLoop_app.
  destruct (fieldsLoop Unmarshal gen pre p r) as [[p1 r1]|]; [|discriminate].
  rewrite fieldsLoop_cons.
  destruct (fieldNode Unmarshal gen f) as [s|]; [|discriminate].
  intros H Hall. exists s. split; [reflexivity|].
  rewrite (fieldsLoop_lookup_other _ _ _ _ _ _ H Hall).
  apply lookup_insert_eq.
Qed.

(** The first field whose node fails ends the loop with that failure; the
    fields after it are not looked at. *)
Lemma fieldsLoop_first_failure pre f post p r p1 r1 x :
  fieldsLoop Unmarshal gen pre p r = inl (p1, r1) ->
  fieldNode Unmarshal gen f = inr x ->
  fieldsLoop Unmarshal gen (pre ++ f :: post) p r = inr x.
Proof.
  intros Hpre Hf. now rewrite fieldsLoop_app, Hpre, fieldsLoop_cons, Hf.
Qed.

(** A field whose node fails makes the loop fail, wherever it stands. *)
Lemma fieldsLoop_some_failure fs f p r x :
  In f fs ->
  fieldNode Unmarshal gen f = inr x ->
  exists y, fieldsLoop Unmarshal gen fs p r = inr y.
Proof.
  intros Hin Hf.
  destruct (fieldsLoop Unmarshal gen fs p r) as [[p' r']|y] eqn:H; [|eauto].
  apply fieldsLoop_inl_nodes in H. rewrite Forall_forall in H.
  destruct (H f) as [s Hs]; [now apply list_elem_of_In|]. congruence.
Qed.

End Loop.

(** ** Facts about [GenerateSchema] *)

Section Facts.

Variable Unmarshal : string -> any * option error.

Local Abbreviation GS := (GenerateSchema Unmarshal).
Local Abbreviation loop := (fieldsLoop Unmarshal (GenerateSchema Unmarshal)).

Implicit Types (f g : StructField Typ) (fs pre post : list (StructField Typ)).

Lemma leafSchema_nodeOrError k str : nodeOrError (leafSchema k str).
Proof. destruct k; simpl; unfold nodeOrError; eauto. Qed.

Lemma GenerateSchema_struct fs :
  GS (StructOf fs) =
  match loop fs ∅ [] with
  | inr res => res
  | inl (properties, required) =>
      (Some (let schema := setType "object" emptySchema in
             let schema := if (0 <? Z.of_nat (size properties))%Z
                           then setProperties properties schema else schema in
             if (0 <? Z.of_nat (length required))%Z
             then setRequired required schema else schema), None)
  end.
Proof. reflexivity. Qed.

Lemma loop_outcome fs p r :
  Forall (fun f => nodeOrError (GS (Type_ f))) fs ->
  (exists pr, loop fs p r = inl pr) \/ (exists e, loop fs p r = inr (None, Some e)).
Proof.
  intros H. revert p r. induction H as [|f fs Hf _ IH]; intros p r.
  - left. simpl. eauto.
  - rewrite fieldsLoop_cons. unfold fieldNode.
    destruct Hf as [[s ->]|[e ->]]; [|right; eauto].
    destruct (applyTags Unmarshal (Tag f) s); [apply IH | right; eauto].
Qed.

(** Every call returns a node or an error, never both and never neither. *)
Lemma GenerateSchema_node_or_error t : nodeOrError (GS t).
Proof.
  induction t as [k str|fs IH|key elem _ _|elem IH|n elem IH|elem IH]
    using Typ_fields_ind.
  - apply leafSchema_nodeOrError.
  - rewrite GenerateSchema_struct.
    destruct (loop_outcome fs ∅ [] IH) as [[[p r] ->]|[e ->]].
    + left. eauto.
    + right. eauto.
  - left. simpl. eauto.
  - simpl. destruct IH as [[s ->]|[e ->]]; [left|right]; eauto.
  - simpl. destruct IH as [[s ->]|[e ->]]; [left|right]; eauto.
  - exact IH.
Qed.

(** What a successful build of a struct returns. *)
Lemma GenerateSchema_struct_ok fs sch :
  GS (StructOf fs) = (Some sch, None) ->
  exists p r, loop fs ∅ [] = inl (p, r) /\
    Type' sch = "object" /\ Properties sch = p /\ Required sch = r /\
    Items sch = None.
Proof.
  rewrite GenerateSchema_struct.
  destruct (loop fs ∅ []) as [[p r]|[o e]] eqn:Hl.
  - intros [= <-]. exists p, r. split; [reflexivity|].
    destruct (0 <? Z.of_nat (size p))%Z eqn:Hp, (0 <? Z.of_nat (length r))%Z eqn:Hr;
      simpl; repeat split; try reflexivity.
    + destruct r; [reflexivity | simpl in Hr; discriminate].
    + symmetry. apply map_size_empty_iff. apply Z.ltb_ge in Hp. lia.
    + symmetry. apply map_size_empty_iff. apply Z.ltb_ge in Hp. lia.
    + destruct r; [reflexivity | simpl in Hr; discriminate].
  - intros [= -> ->]. apply fieldsLoop_inr_None in Hl. discriminate.
Qed.

(** A failing loop is a failing build, with the same result. *)
Lemma GenerateSchema_struct_fail fs res :
  loop fs ∅ [] = inr res -> GS (StructOf fs) = res.
Proof. intros H. now rewrite GenerateSchema_struct, H. Qed.

End Facts.

(** ** The refinement by tags *)

Section Tags.

Variable Unmarshal : string -> any * option error.

Implicit Types (tag : StructTag) (s : Schema).

Ltac tags_cases H :=
  repeat match type of H with
         | context [Lookup ?t ?k] => destruct (Lookup t k) eqn:?
         | context [strconv.Atoi ?d] => destruct (strconv.Atoi d) as [? [?|]] eqn:?
         | context [String.eqb ?a ?b] => destruct (String.eqb a b) eqn:?
         | context [Unmarshal ?e] => destruct (Unmarshal e) as [? [?|]] eqn:?
         end.

(** The tags change neither the kind of the node nor its children. *)
Lemma applyTags_Type tag s s' :
  applyTags Unmarshal tag s = inl s' ->
  Type' s' = Type' s /\ Items s' = Items s /\ Properties s' = Properties s /\
  Required s' = Required s.
Proof.
  unfold applyTags. intros H. tags_cases H; simpl in H;
    try discriminate H; injection H as <-; simpl; auto.
Qed.

(** The bounds after the tags: the parsed tag where there is one, else the
    bound the node came with; and both tags parsed. *)
Lemma applyTags_bounds tag s s' :
  applyTags Unmarshal tag s = inl s' ->
  Minimum s' = boundOf tag "minimum" (Minimum s) /\
  Maximum s' = boundOf tag "maximum" (Maximum s) /\
  boundsParse tag.
Proof.
  unfold applyTags, boundOf, boundsParse. intros H.
  tags_cases H; simpl in H; try discriminate H; injection H as <-; simpl;
    repeat split; try reflexivity; intros d' [= <-] || intros d' [=];
    match goal with Heq : strconv.Atoi _ = _ |- _ => now rewrite Heq | _ => idtac end.
Qed.

(** The example after the tags. *)
Lemma applyTags_example tag s s' e :
  applyTags Unmarshal tag s = inl s' ->
  Lookup tag "example" = Some e ->
  (Type' s = "string" /\ Example s' = AString e) \/
  (Type' s <> "string" /\ Unmarshal e = (Example s', None)).
Proof.
  unfold applyTags. intros H He. rewrite He in H.
  tags_cases H; simpl in *; try discriminate H; injection H as <-; simpl;
    match goal with
    | Heq : String.eqb _ _ = true |- _ => apply String.eqb_eq in Heq; left; auto
    | Heq : String.eqb _ _ = false |- _ => apply String.eqb_neq in Heq; right; auto
    end.
Qed.





Lemma applyTags_succeeds tag s :
  boundsParse tag ->
  (forall e, Lookup tag "example" = Some e ->
             Type' s = "string" \/ snd (Unmarshal e) = None) ->
  exists s', applyTags Unmarshal tag s = inl s'.
Proof.
  intros [Hmin Hmax] He. unfold applyTags.
  destruct (Lookup tag "description"), (Lookup tag "enum"),
    (Lookup tag "minimum") as [d0|], (Lookup tag "maximum") as [d1|];
    try specialize (Hmin _ eq_refl); try specialize (Hmax _ eq_refl);
    repeat match goal with
           | H : snd (strconv.Atoi ?d) = None |- _ =>
               destruct (strconv.Atoi d) as [? [?|]]; [discriminate H|]; clear H
           end;
    unfold setMaximum, setMinimum, setEnum, setDescription; simpl;
    (destruct (Lookup tag "example") as [e|]; [|eauto]);
    (destruct (He e eq_refl) as [Hs|Hu];
     [rewrite Hs; simpl; eauto
     |destruct (String.eqb (Type' s) "string"); [eauto|];
      destruct (Unmarshal e) as [v [x|]]; [discriminate Hu | eauto]]).
Qed.

End Tags.

(** ** The store *)

Section Store.

Implicit Types (h : store) (p q : ptr) (n : Node) (s c : Schema).

Lemma keeps_refl q h : keeps q h h.
Proof. intros x n _ H. exact H. Qed.

Lemma keeps_trans q h1 h2 h3 : keeps q h1 h2 -> keeps q h2 h3 -> keeps q h1 h3.
Proof. intros H1 H2 x n Hx H. eauto. Qed.

Lemma keeps_weaken q q' h h' : (q <= q')%nat -> keeps q h h' -> keeps q' h h'.
Proof. intros Hq H x n Hx. apply H. lia. Qed.

Lemma keeps_alloc q n h : keeps q h (snd (alloc n h)).
Proof. intros x m _ H. simpl. now apply lookup_app_l_Some. Qed.

(** An assignment through [p] leaves every other address alone. *)
Lemma keeps_update_above p q g h : (p < q)%nat -> keeps q h (update p g h).
Proof.
  intros Hp x n Hx H. unfold update. rewrite list_lookup_alter_ne by lia. exact H.
Qed.

(** An assignment through a pointer allocated after [h0] leaves [h0] alone. *)
Lemma keeps_update_fresh q p g h0 h :
  keeps q h0 h -> (length h0 <= p)%nat -> keeps q h0 (update p g h).
Proof.
  intros Hk Hp x n Hx H. unfold update.
  rewrite list_lookup_alter_ne; [now apply Hk|].
  apply lookup_lt_Some in H. lia.
Qed.

Lemma keeps_length h h' : keeps 0%nat h h' -> (length h <= length h')%nat.
Proof.
  intros Hk. destruct h as [|n0 h0] using rev_ind; [simpl; lia|].
  rewrite length_app. simpl.
  assert (H : (h0 ++ [n0])%list !! length h0 = Some n0) by (now rewrite list_lookup_middle).
  apply Hk in H; [|lia]. apply lookup_lt_Some in H. lia.
Qed.

Lemma update_length p g h : length (update p g h) = length h.
Proof. apply length_alter. Qed.

Lemma childRel_impl (R R' : ptr -> Schema -> Prop) o os :
  (forall q c, R q c -> R' q c) -> childRel R o os -> childRel R' o os.
Proof. intros H. destruct o, os; simpl; auto. Qed.

(** A tree read at [q] depends only on the nodes at [q] and above. *)
Lemma readsN_keeps d : forall h h' q s,
  readsN d h q s -> keeps q h h' -> readsN d h' q s.
Proof.
  induction d as [|d IH]; intros h h' q s; [intros []|].
  intros (n & Hn & Hs & Hi & Hp) Hk. exists n.
  split; [apply Hk; [lia | exact Hn]|]. split; [exact Hs|].
  assert (Hc : forall x c, (q < x)%nat /\ readsN d h x c -> (q < x)%nat /\ readsN d h' x c).
  { intros x c [Hx Hr]. split; [exact Hx|].
    apply (IH h h' x c Hr). apply (keeps_weaken q); [lia | exact Hk]. }
  split; [exact (childRel_impl _ _ _ _ Hc Hi)|].
  intros k. exact (childRel_impl _ _ _ _ Hc (Hp k)).
Qed.

Lemma readsN_mono d : forall d' h q s,
  (d <= d')%nat -> readsN d h q s -> readsN d' h q s.
Proof.
  induction d as [|d IH]; intros d' h q s Hd; [intros []|].
  destruct d' as [|d']; [lia|].
  intros (n & Hn & Hs & Hi & Hp). exists n. split; [exact Hn|]. split; [exact Hs|].
  assert (Hc : forall x c, (q < x)%nat /\ readsN d h x c -> (q < x)%nat /\ readsN d' h x c).
  { intros x c [Hx Hr]. split; [exact Hx|]. apply (IH d'); [lia | exact Hr]. }
  split; [exact (childRel_impl _ _ _ _ Hc Hi)|].
  intros k. exact (childRel_impl _ _ _ _ Hc (Hp k)).
Qed.

Lemma reads_keeps h h' q s : reads h q s -> keeps q h h' -> reads h' q s.
Proof. intros [d H] Hk. exists d. eapply readsN_keeps; eauto. Qed.

Lemma reads_lookup h q s : reads h q s -> (q < length h)%nat.
Proof.
  intros [[|d] H]; [destruct H|]. destruct H as (n & Hn & _).
  now apply lookup_lt_Some in Hn.
Qed.

End Store.

(** ** The tags on the heap *)

Section TagsOnTheHeap.

Variable Unmarshal : string -> any * option error.

Implicit Types (h : store) (p q : ptr) (n m : Node) (s c : Schema).

Lemma update_insert p g m h :
  (p < length h)%nat -> update p g (<[p := m]> h) = <[p := g m]> h.
Proof.
  intros Hp. unfold update. apply list_eq. intros i.
  destruct (decide (p = i)) as [<-|Hne].
  - rewrite list_lookup_alter_eq, !list_lookup_insert_eq by (rewrite ?length_insert; lia).
    reflexivity.
  - rewrite list_lookup_alter_ne, !list_lookup_insert_ne by assumption. reflexivity.
Qed.

Lemma loadType_insert p m h :
  (p < length h)%nat -> loadType p (<[p := m]> h) = nType m.
Proof. intros Hp. unfold loadType. now rewrite list_lookup_insert_eq. Qed.

Lemma scalars_Type n s : scalarsOf n = scalars s -> nType n = Type' s.
Proof. intros H. now injection H. Qed.

Lemma tagged_init p h n s :
  h !! p = Some n -> scalarsOf n = scalars s -> tagged p h n s h s.
Proof.
  intros Hn Hs. exists n. rewrite list_insert_id by exact Hn. auto 10.
Qed.

(** One assignment of a scalar attribute, on both sides. *)
Lemma tagged_step p h n s h' s' (g : Node -> Node) (gS : Schema -> Schema) :
  (p < length h)%nat ->
  (forall m c, scalarsOf m = scalars c -> scalarsOf (g m) = scalars (gS c)) ->
  (forall m, nItems (g m) = nItems m /\ nProperties (g m) = nProperties m) ->
  (forall c, Items (gS c) = Items c /\ Properties (gS c) = Properties c) ->
  tagged p h n s h' s' ->
  tagged p h n s (update p g h') (gS s').
Proof.
  intros Hp Hsc Hn Hc (n' & -> & Hs & Hi & Hpr & Hi' & Hpr').
  exists (g n'). rewrite update_insert by exact Hp.
  destruct (Hn n') as [-> ->]. destruct (Hc s') as [-> ->]. auto 10.
Qed.

Lemma tagged_Type p h n s h' s' :
  (p < length h)%nat -> tagged p h n s h' s' -> loadType p h' = Type' s'.
Proof.
  intros Hp (n' & -> & Hs & _). rewrite loadType_insert by exact Hp.
  now apply scalars_Type.
Qed.

Ltac scalar_setter :=
  first
    [ intros m c H; unfold scalarsOf, scalars, setItems, setProperties in *;
      cbn in *; injection H; intros; f_equal; assumption
    | intros; split; reflexivity ].

Ltac tag_step := apply tagged_step; [assumption | scalar_setter ..| assumption].

(** The tags act on the node at [p] as [applyTags] acts on the tree it reads
    to: only the node at [p] changes, and only in its scalar attributes. *)
Lemma applyTagsM_refines tag p h n s :
  h !! p = Some n ->
  scalarsOf n = scalars s ->
  match applyTagsM Unmarshal tag p h, applyTags Unmarshal tag s with
  | (None, h'), inl s' => tagged p h n s h' s'
  | (Some e, h'), inr e' => e = e' /\ exists s', tagged p h n s h' s'
  | _, _ => False
  end.
Proof.
  intros Hn Hs.
  assert (Hp : (p < length h)%nat) by (now apply lookup_lt_Some in Hn).
  pose proof (tagged_init p h n s Hn Hs) as I0.
  unfold applyTagsM, applyTags.
  set (h1 := match Lookup tag "description" with Some d => _ | None => h end).
  set (s1 := match Lookup tag "description" with Some d => _ | None => s end).
  assert (I1 : tagged p h n s h1 s1)
    by (subst h1 s1; destruct (Lookup tag "description"); [tag_step | exact I0]).
  clearbody h1 s1. clear I0.
  set (h2 := match Lookup tag "enum" with Some d => _ | None => h1 end).
  set (s2 := match Lookup tag "enum" with Some d => _ | None => s1 end).
  assert (I2 : tagged p h n s h2 s2)
    by (subst h2 s2; destruct (Lookup tag "enum"); [tag_step | exact I1]).
  clearbody h2 s2. clear I1.
  destruct (Lookup tag "minimum") as [mi|];
    [destruct (strconv.Atoi mi) as [miv [mie|]]; [split; [reflexivity | eauto]|]|].
  - assert (I3 : tagged p h n s (update p (nsetMinimum (Some miv)) h2)
                   (setMinimum (Some miv) s2)) by tag_step.
    revert I3. generalize (update p (nsetMinimum (Some miv)) h2) (setMinimum (Some miv) s2).
    clear I2 h2 s2. intros h3 s3 I3.
    destruct (Lookup tag "maximum") as [ma|];
      [destruct (strconv.Atoi ma) as [mav [mae|]]; [split; [reflexivity | eauto]|]|].
    + assert (I4 : tagged p h n s (update p (nsetMaximum (Some mav)) h3)
                     (setMaximum (Some mav) s3)) by tag_step.
      revert I4. generalize (update p (nsetMaximum (Some mav)) h3) (setMaximum (Some mav) s3).
      clear I3 h3 s3. intros h4 s4 I4.
      destruct (Lookup tag "example") as [ex|]; [|exact I4].
      rewrite (tagged_Type _ _ _ _ _ _ Hp I4).
      destruct (String.eqb (Type' s4) "string"); [tag_step|].
      destruct (Unmarshal ex) as [exv [exe|]]; [split; [reflexivity | eauto] | tag_step].
    + destruct (Lookup tag "example") as [ex|]; [|exact I3].
      rewrite (tagged_Type _ _ _ _ _ _ Hp I3).
      destruct (String.eqb (Type' s3) "string"); [tag_step|].
      destruct (Unmarshal ex) as [exv [exe|]]; [split; [reflexivity | eauto] | tag_step].
  - destruct (Lookup tag "maximum") as [ma|];
      [destruct (strconv.Atoi ma) as [mav [mae|]]; [split; [reflexivity | eauto]|]|].
    + assert (I4 : tagged p h n s (update p (nsetMaximum (Some mav)) h2)
                     (setMaximum (Some mav) s2)) by tag_step.
      revert I4. generalize (update p (nsetMaximum (Some mav)) h2) (setMaximum (Some mav) s2).
      clear I2 h2 s2. intros h4 s4 I4.
      destruct (Lookup tag "example") as [ex|]; [|exact I4].
      rewrite (tagged_Type _ _ _ _ _ _ Hp I4).
      destruct (String.eqb (Type' s4) "string"); [tag_step|].
      destruct (Unmarshal ex) as [exv [exe|]]; [split; [reflexivity | eauto] | tag_step].
    + destruct (Lookup tag "example") as [ex|]; [|exact I2].
      rewrite (tagged_Type _ _ _ _ _ _ Hp I2).
      destruct (String.eqb (Type' s2) "string"); [tag_step|].
      destruct (Unmarshal ex) as [exv [exe|]]; [split; [reflexivity | eauto] | tag_step].
Qed.

End TagsOnTheHeap.

(** ** The heap version refines the pure function *)

Section Refinement.

Variable Unmarshal : string -> any * option error.

Local Abbreviation GS := (GenerateSchema Unmarshal).
Local Abbreviation GSM := (GenerateSchemaM Unmarshal).

Implicit Types (h : store) (p q a : ptr) (n m : Node) (s c : Schema).

Lemma keeps_insert_above p q m h : (p < q)%nat -> keeps q h (<[p := m]> h).
Proof.
  intros Hp x n Hx H. rewrite list_lookup_insert_ne by lia. exact H.
Qed.

Lemma keeps_insert_fresh q p m h0 h :
  keeps q h0 h -> (length h0 <= p)%nat -> keeps q h0 (<[p := m]> h).
Proof.
  intros Hk Hp x n Hx H.
  rewrite list_lookup_insert_ne; [now apply Hk|].
  apply lookup_lt_Some in H. lia.
Qed.

Lemma update_lookup p g n h :
  h !! p = Some n -> update p g h !! p = Some (g n).
Proof. intros H. unfold update. now rewrite list_lookup_alter_eq, H. Qed.

Lemma propsRel_keeps a d d' h h' pm ps :
  propsRel a d h pm ps -> keeps (S a) h h' -> (d <= d')%nat ->
  propsRel a d' h' pm ps.
Proof.
  intros H Hk Hd k. eapply childRel_impl; [|exact (H k)].
  intros q c [Hq Hr]. split; [exact Hq|].
  apply (readsN_mono d); [exact Hd|].
  eapply readsN_keeps; [exact Hr|]. apply (keeps_weaken (S a)); [lia | exact Hk].
Qed.

Lemma propsRel_insert a d h pm ps name q c :
  propsRel a d h pm ps -> (a < q)%nat -> readsN d h q c ->
  propsRel a d h (<[name := q]> pm) (<[name := c]> ps).
Proof.
  intros H Hq Hr k. destruct (decide (name = k)) as [<-|Hne].
  - rewrite !lookup_insert_eq. simpl. auto.
  - rewrite !lookup_insert_ne by exact Hne. apply H.
Qed.

Lemma propsRel_size a d h pm ps :
  propsRel a d h pm ps -> size pm = size ps.
Proof.
  intros H. rewrite <- !size_dom. f_equal. apply set_eq. intros k.
  rewrite !elem_of_dom. specialize (H k).
  destruct (pm !! k), (ps !! k); simpl in H; try contradiction;
    split; intros [? ?]; try discriminate; eauto.
Qed.

(** The node a tree is read from, after the tags. *)
Lemma tagged_reads d p h n s h' s' :
  h !! p = Some n ->
  readsN (S d) h p s ->
  tagged p h n s h' s' ->
  readsN (S d) h' p s'.
Proof.
  intros Hn (n0 & Hn0 & _ & Hi & Hp) (n' & -> & Hs' & Hin & Hpn & His & Hps).
  rewrite Hn in Hn0. injection Hn0 as <-.
  assert (Hlt : (p < length h)%nat) by (now apply lookup_lt_Some in Hn).
  assert (Hc : forall x c, (p < x)%nat /\ readsN d h x c ->
                 (p < x)%nat /\ readsN d (<[p := n']> h) x c).
  { intros x c [Hx Hr]. split; [exact Hx|].
    eapply readsN_keeps; [exact Hr|]. now apply keeps_insert_above. }
  exists n'. split; [now apply list_lookup_insert_eq|]. split; [exact Hs'|].
  rewrite Hin, His, Hpn, Hps. split.
  - exact (childRel_impl _ _ _ _ Hc Hi).
  - intros k. exact (childRel_impl _ _ _ _ Hc (Hp k)).
Qed.

Lemma tagged_keeps p h n s h' s' h0 q :
  tagged p h n s h' s' -> keeps q h0 h -> (length h0 <= p)%nat -> keeps q h0 h'.
Proof.
  intros (n' & -> & _) Hk Hp. now apply keeps_insert_fresh.
Qed.

Lemma tagged_length p h n s h' s' :
  tagged p h n s h' s' -> length h' = length h.
Proof. intros (n' & -> & _). apply length_insert. Qed.

(** The loop on the heap against the pure loop. *)
Lemma fieldsLoopM_refines fs :
  Forall (fun f => forall h, refines h (GSM (Type_ f) h) (GS (Type_ f))) fs ->
  forall a h r pm ps d,
    (a < length h)%nat ->
    propsRel a d h pm ps ->
    match fieldsLoopM Unmarshal GSM fs pm r h, fieldsLoop Unmarshal GS fs ps r with
    | (inl (pm', r'), h'), inl (ps', r'') =>
        r' = r'' /\ keeps 0%nat h h' /\ exists d', propsRel a d' h' pm' ps'
    | (inr (None, Some e), h'), inr (None, Some e') => e = e' /\ keeps 0%nat h h'
    | _, _ => False
    end.
Proof.
  intros HF. induction HF as [|f fs Hf _ IH]; intros a h r pm ps d Ha Hrel.
  - simpl. split; [reflexivity|]. split; [apply keeps_refl | eauto].
  - rewrite fieldsLoop_cons. simpl fieldsLoopM. unfold fieldNode.
    specialize (Hf h). unfold refines in Hf.
    destruct (GSM (Type_ f) h) as [[op oe] h1].
    destruct (GS (Type_ f)) as [os oe']. simpl in Hf.
    destruct Hf as [Hk Hf].
    destruct op as [s|], oe as [e|], os as [sch|], oe' as [e'|]; try contradiction.
    2: { subst e'. auto. }
    destruct Hf as [Hs [[|ds] Hr]]; [destruct Hr|].
    pose proof Hr as (n & Hn & Hsc & _).
    pose proof (applyTagsM_refines Unmarshal (Tag f) s h1 n sch Hn Hsc) as Ht.
    destruct (applyTagsM Unmarshal (Tag f) s h1) as [[e|] h2],
             (applyTags Unmarshal (Tag f) sch) as [sch'|e']; try contradiction.
    + destruct Ht as [-> [s' Ht]]. split; [reflexivity|].
      eapply tagged_keeps; eauto.
    + pose proof (tagged_reads _ _ _ _ _ _ _ Hn Hr Ht) as Hr'.
      pose proof (tagged_keeps _ _ _ _ _ _ _ _ Ht Hk Hs) as Hk2.
      pose proof (tagged_length _ _ _ _ _ _ Ht) as Hl.
      pose proof (keeps_length _ _ Hk) as Hl1.
      assert (Hrel' : propsRel a (Nat.max d (S ds)) h2
                (<[fieldName f := s]> pm) (<[fieldName f := sch']> ps)).
      { apply propsRel_insert.
        - eapply propsRel_keeps; [exact Hrel | | lia].
          apply (keeps_weaken 0); [lia | exact Hk2].
        - lia.
        - apply (readsN_mono (S ds)); [lia | exact Hr']. }
      specialize (IH a h2 (if optional f then r else (r ++ [fieldName f])%list)
                    _ _ _ ltac:(lia) Hrel').
      destruct (fieldsLoopM Unmarshal GSM fs _ _ h2) as [[[pm' r']|[o e]] h3],
               (fieldsLoop Unmarshal GS fs _ _) as [[ps' r'']|[o' e']];
        try contradiction.
      * destruct IH as (-> & Hk3 & Hd). split; [reflexivity|].
        split; [eapply keeps_trans; eauto | exact Hd].
      * destruct o; [contradiction|]. destruct e; contradiction.
      * destruct o as [|]; [contradiction|]. destruct e as [e|]; [|contradiction].
        destruct o' as [|]; [contradiction|]. destruct e' as [e'|]; [|contradiction].
        destruct IH as [-> Hk3]. split; [reflexivity | eapply keeps_trans; eauto].
Qed.

Lemma readsN_leaf h p n s :
  h !! p = Some n -> scalarsOf n = scalars s ->
  nItems n = None -> nProperties n = ∅ -> Items s = None -> Properties s = ∅ ->
  readsN 1 h p s.
Proof.
  intros Hn Hs Hi Hp Hi' Hp'. exists n. split; [exact Hn|]. split; [exact Hs|].
  rewrite Hi, Hi', Hp, Hp'. split; [exact I|].
  intros k. rewrite !lookup_empty. exact I.
Qed.

Lemma alloc_lookup n h : snd (alloc n h) !! fst (alloc n h) = Some n.
Proof. simpl. now rewrite list_lookup_middle. Qed.

Lemma leaf_refines k str h :
  refines h (GSM (Leaf k str) h) (GS (Leaf k str)).
Proof.
  simpl. unfold refines.
  destruct k; simpl;
    (split;
     [ intros x n _ H; rewrite <- ?app_assoc; now apply lookup_app_l_Some
     | try reflexivity ]);
    (split; [rewrite length_app; simpl; lia|]);
    exists 1%nat; eapply readsN_leaf;
      try (rewrite length_app; simpl;
           replace (length h + 1)%nat with (length (h ++ [emptyNode])%list)
             by (rewrite length_app; simpl; lia);
           apply list_lookup_middle; reflexivity);
      reflexivity.
Qed.

(** The arm of slices and arrays, given the refinement for the element. *)
Lemma slice_refines
    (resM : (option ptr * option error) * store)
    (res : option Schema * option error) h :
  refines (update (length h) (nsetType "array") (h ++ [emptyNode])%list) resM res ->
  refines h
    (match resM with
     | ((_, Some err), h') => ((None, Some err), h')
     | ((s, None), h') =>
         ((Some (length h), None), update (length h) (nsetItems s) h')
     end)
    (match res with
     | (_, Some err) => (None, Some err)
     | (s, None) => (Some (setItems s (setType "array" emptySchema)), None)
     end).
Proof.
  set (a := length h).
  set (h1 := update a (nsetType "array") (h ++ [emptyNode])%list).
  assert (Ha1 : h1 !! a = Some (nsetType "array" emptyNode)).
  { subst h1 a. apply update_lookup. now rewrite list_lookup_middle. }
  assert (Hk1 : keeps 0%nat h h1).
  { subst h1 a. apply keeps_update_fresh; [|lia]. apply (keeps_alloc 0 emptyNode h). }
  assert (Hl1 : length h1 = S a).
  { subst h1 a. rewrite update_length, length_app. simpl. lia. }
  clearbody h1. unfold refines.
  destruct resM as [[op oe] h2], res as [os oe']. simpl.
  intros [Hk2 H].
  destruct op as [s|], oe as [e|], os as [sch|], oe' as [e'|]; try contradiction.
  - destruct H as [Hs [d Hr]]. split.
    + apply keeps_update_fresh; [eapply keeps_trans; eauto | subst a; lia].
    + split; [subst a; lia|]. exists (S d).
      exists (nsetItems (Some s) (nsetType "array" emptyNode)).
      split; [apply update_lookup, Hk2; [lia | exact Ha1]|].
      split; [reflexivity|]. split.
      * simpl. split; [lia|]. eapply readsN_keeps; [exact Hr|].
        apply keeps_update_above. lia.
      * intros k. simpl. rewrite !lookup_empty. exact I.
  - split; [eapply keeps_trans; eauto | exact H].
Qed.

(** The refinement: run from any store, [GenerateSchemaM] leaves the nodes
    that were there untouched, fails exactly when [GenerateSchema] fails and
    with the same error, and otherwise returns a fresh pointer that reads
    back to the tree [GenerateSchema] returns. *)
Theorem GenerateSchemaM_refines t : forall h, refines h (GSM t h) (GS t).
Proof.
  induction t as [k str|fs IH|key elem _ _|elem IH|len elem IH|elem IH]
    using Typ_fields_ind; intros h.
  - apply leaf_refines.
  - rewrite GenerateSchema_struct. simpl GenerateSchemaM.
    set (a := length h).
    set (h1 := update a (nsetType "object") (h ++ [emptyNode])%list).
    assert (Ha1 : h1 !! a = Some (nsetType "object" emptyNode)).
    { subst h1 a. apply update_lookup. now rewrite list_lookup_middle. }
    assert (Hk1 : keeps 0%nat h h1).
    { subst h1 a. apply keeps_update_fresh; [|lia]. apply (keeps_alloc 0 emptyNode h). }
    assert (Hrel0 : propsRel a 0 h1 ∅ ∅) by (intros k; rewrite !lookup_empty; exact I).
    pose proof (fieldsLoopM_refines fs IH a h1 [] ∅ ∅ 0%nat
                  ltac:(now apply lookup_lt_Some in Ha1) Hrel0) as HL.
    destruct (fieldsLoopM Unmarshal GSM fs ∅ [] h1) as [[[pm r]|[o e]] h2],
             (fieldsLoop Unmarshal GS fs ∅ []) as [[ps r']|[o' e']];
      try contradiction.
    + destruct HL as (<- & Hk2 & d & Hrel).
      assert (Ha2 : h2 !! a = Some (nsetType "object" emptyNode))
        by (apply Hk2; [lia | exact Ha1]).
      pose proof (propsRel_size _ _ _ _ _ Hrel) as Hsz.
      set (h3 := if (0 <? Z.of_nat (size pm))%Z
                 then update a (nsetProperties pm) h2 else h2).
      set (n3 := nsetProperties pm (nsetType "object" emptyNode)).
      assert (Ha3 : h3 !! a = Some n3).
      { subst h3 n3. destruct (0 <? Z.of_nat (size pm))%Z eqn:Hc.
        - now apply update_lookup.
        - apply Z.ltb_ge in Hc.
          assert (Hpm : pm = ∅) by (apply map_size_empty_iff; lia).
          rewrite Ha2, Hpm. reflexivity. }
      assert (Hk3 : keeps (S a) h2 h3).
      { subst h3. destruct (0 <? Z.of_nat (size pm))%Z;
          [apply keeps_update_above; lia | apply keeps_refl]. }
      assert (Hk3' : keeps 0%nat h h3).
      { subst h3. destruct (0 <? Z.of_nat (size pm))%Z.
        - apply keeps_update_fresh; [eapply keeps_trans; eauto | subst a; lia].
        - eapply keeps_trans; eauto. }
      clearbody h3.
      set (h4 := if (0 <? Z.of_nat (length r))%Z
                 then update a (nsetRequired r) h3 else h3).
      set (n4 := nsetRequired r n3).
      assert (Ha4 : h4 !! a = Some n4).
      { subst h4 n4. destruct (0 <? Z.of_nat (length r))%Z eqn:Hc.
        - now apply update_lookup.
        - rewrite Ha3. destruct r; [reflexivity | simpl in Hc; discriminate]. }
      assert (Hk4 : keeps (S a) h3 h4).
      { subst h4. destruct (0 <? Z.of_nat (length r))%Z;
          [apply keeps_update_above; lia | apply keeps_refl]. }
      assert (Hk4' : keeps 0%nat h h4).
      { subst h4. destruct (0 <? Z.of_nat (length r))%Z.
        - apply keeps_update_fresh; [exact Hk3' | subst a; lia].
        - exact Hk3'. }
      clearbody h4.
      unfold refines. simpl. split; [exact Hk4'|]. split; [subst a; lia|].
      exists (S d), n4. split; [exact Ha4|].
      assert (Hps : (if (0 <? Z.of_nat (size ps))%Z
                     then setProperties ps (setType "object" emptySchema)
                     else setType "object" emptySchema)
                    = setProperties ps (setType "object" emptySchema)).
      { destruct (0 <? Z.of_nat (size ps))%Z eqn:Hc; [reflexivity|].
        apply Z.ltb_ge in Hc.
        assert (Hpe : ps = ∅) by (apply map_size_empty_iff; lia).
        rewrite Hpe. reflexivity. }
      rewrite Hps.
      assert (Hrq : (if (0 <? Z.of_nat (length r))%Z
                     then setRequired r (setProperties ps (setType "object" emptySchema))
                     else setProperties ps (setType "object" emptySchema))
                    = setRequired r (setProperties ps (setType "object" emptySchema))).
      { destruct r; reflexivity. }
      rewrite Hrq.
      split; [reflexivity|]. split; [exact I|].
      simpl. eapply propsRel_keeps; [exact Hrel | | lia].
      eapply keeps_trans; eauto.
    + destruct o; [contradiction|]. destruct e; contradiction.
    + destruct o as [|]; [contradiction|]. destruct e as [e|]; [|contradiction].
      destruct o' as [|]; [contradiction|]. destruct e' as [e'|]; [|contradiction].
      destruct HL as [-> Hk2]. unfold refines. simpl.
      split; [eapply keeps_trans; eauto | reflexivity].
  - simpl. unfold refines. simpl. split; [apply (keeps_alloc 0 emptyNode h)|].
    split; [lia|]. exists 1%nat.
    apply (readsN_leaf _ _ emptyNode emptySchema); try reflexivity.
    now rewrite list_lookup_middle.
  - simpl GenerateSchemaM. simpl GenerateSchema. apply slice_refines. apply IH.
  - simpl GenerateSchemaM. simpl GenerateSchema. apply slice_refines. apply IH.
  - simpl GenerateSchemaM. simpl GenerateSchema.
    specialize (IH (h ++ [emptyNode])%list). unfold refines in *.
    destruct (GSM elem (h ++ [emptyNode])%list) as [[op oe] h1].
    simpl in *. destruct IH as [Hk IH]. split.
    + eapply keeps_trans; [apply (keeps_alloc 0 emptyNode h) | exact Hk].
    + destruct op, oe, (GS elem) as [[?|] [?|]]; try contradiction; try exact IH.
      destruct IH as [Hl Hr]. split; [|exact Hr].
      rewrite length_app in Hl. simpl in Hl. lia.
Qed.

End Refinement.

(** ** Reading back is a function *)
Section ReadBack.

Implicit Types (h : store) (p q : ptr) (n : Node) (s c : Schema).

Lemma Schema_ext s1 s2 :
  scalars s1 = scalars s2 -> Items s1 = Items s2 ->
  Properties s1 = Properties s2 -> s1 = s2.
Proof.
  destruct s1, s2. unfold scalars, setItems, setProperties. simpl.
  intros H -> ->. injection H; intros; subst. reflexivity.
Qed.

(** A pointer reads back to one tree only: [reads] is a function of the
    store and the pointer. *)
Lemma readsN_functional d1 : forall d2 h p s1 s2,
  readsN d1 h p s1 -> readsN d2 h p s2 -> s1 = s2.
Proof.
  induction d1 as [|d1 IH]; intros d2 h p s1 s2; [intros []|].
  destruct d2 as [|d2]; [intros _ []|].
  intros (n1 & Hn1 & Hs1 & Hi1 & Hp1) (n2 & Hn2 & Hs2 & Hi2 & Hp2).
  rewrite Hn1 in Hn2. injection Hn2 as <-.
  apply Schema_ext.
  - congruence.
  - destruct (nItems n1), (Items s1), (Items s2); simpl in Hi1, Hi2;
      try contradiction; [|reflexivity].
    f_equal. eapply IH; [apply Hi1 | apply Hi2].
  - apply map_eq. intros k. specialize (Hp1 k). specialize (Hp2 k).
    destruct (nProperties n1 !! k), (Properties s1 !! k), (Properties s2 !! k);
      simpl in Hp1, Hp2; try contradiction; [|reflexivity].
    f_equal. eapply IH; [apply Hp1 | apply Hp2].
Qed.

Lemma reads_functional h p s1 s2 : reads h p s1 -> reads h p s2 -> s1 = s2.
Proof. intros [d1 H1] [d2 H2]. eapply readsN_functional; eauto. Qed.

End ReadBack.

(** ** The properties of the specification *)

(** C1 (the code departs from it). The specification has a field without a
    json tag keep its identifier as the key. On
    [struct { name string; age int `json:"age,omitempty"` }] the code keys
    the first field by the empty string: [Tag.Get] yields the empty text,
    [Split] of it is the one-element list of the empty text, so the guard
    [len(jsonTags) > 0] holds and [name] is overwritten. The result has the
    properties [""] and ["age"] and the required list [[""]]; no key
    ["name"] exists. *)
Theorem unannotated_field_is_keyed_by_empty_name
    (Unmarshal : string -> any * option error) :
  GenerateSchema Unmarshal Examples.person =
    (Some (setRequired [""]
            (setProperties
               (<["age" := setType "integer" emptySchema]>
                  (<["" := setType "string" emptySchema]> ∅))
               (setType "object" emptySchema))), None)
  /\ (forall name ty, fieldName (mkField name ty []) = "")
  /\ (forall sch, GenerateSchema Unmarshal Examples.person = (Some sch, None) ->
        Properties sch !! "name" = None /\ Required sch <> ["name"]).
Proof.
  assert (Heval : GenerateSchema Unmarshal Examples.person =
    (Some (setRequired [""]
            (setProperties
               (<["age" := setType "integer" emptySchema]>
                  (<["" := setType "string" emptySchema]> ∅))
               (setType "object" emptySchema))), None)) by reflexivity.
  split; [exact Heval|]. split; [reflexivity|].
  intros sch H. rewrite Heval in H. injection H as <-. split.
  - reflexivity.
  - discriminate.
Qed.






(** C4 as stated fails for a type nested in a struct, in two ways. Under a
    map the walk does not go: [struct { Pipes map[string]chan int }] builds,
    channel and all, to an object whose one property is the empty node. And
    the build of a struct stops at its first error, which need not be the
    unsupported type: in
    [struct { ID int `minimum:"abc"`; Pipe chan int }] it is the error of the
    malformed bound. *)
Lemma unsupported_type_can_go_unreported :
  unsupported Chan = true /\
  GenerateSchema exampleUnmarshal Examples.underMap =
    (Some (setRequired ["pipes"]
            (setProperties (<["pipes" := emptySchema]> ∅)
               (setType "object" emptySchema))), None) /\
  GenerateSchema exampleUnmarshal Examples.badThenChannel =
    (None, Some (NumError "Atoi" "abc" ErrSyntax)).
Proof. repeat split. Qed.

(** C4, amended. (1) A descriptor of a kind the switch does not name fails
    with the error that spells the kind and the type. (2) A descriptor that
    has such a type inside it, along struct fields, slices, arrays and
    pointers, never builds. (3) The error of a recursive call is returned at
    once and unchanged: by a slice, an array and a pointer, and by a struct
    whose earlier fields built, whatever fields follow. (4) Every call
    returns a node and no error, or an error and no node. *)
Theorem unsupported_type_fails_the_build
    (Unmarshal : string -> any * option error) :
  (forall k str, unsupported k = true ->
     GenerateSchema Unmarshal (Leaf k str) =
       (None, Some (Errorf ("unsupported type " ++ Kind_String k ++ " from " ++ str)))) /\
  (forall k str t, unsupported k = true -> nestedIn (Leaf k str) t ->
     exists e, GenerateSchema Unmarshal t = (None, Some e)) /\
  (forall elem n e, GenerateSchema Unmarshal elem = (None, Some e) ->
     GenerateSchema Unmarshal (SliceOf elem) = (None, Some e) /\
     GenerateSchema Unmarshal (ArrayOf n elem) = (None, Some e) /\
     GenerateSchema Unmarshal (PtrOf elem) = (None, Some e)) /\
  (forall pre f post p r e,
     fieldsLoop Unmarshal (GenerateSchema Unmarshal) pre ∅ [] = inl (p, r) ->
     GenerateSchema Unmarshal (Type_ f) = (None, Some e) ->
     GenerateSchema Unmarshal (StructOf (pre ++ f :: post)) = (None, Some e)) /\
  (forall t, nodeOrError (GenerateSchema Unmarshal t)).
Proof.
  split; [|split; [|split; [|split]]].
  - intros k str Hk. destruct k; try discriminate Hk; reflexivity.
  - intros k str t Hk Hn. induction Hn as [|fs f Hin _ IH|elem _ IH|n elem _ IH|elem _ IH].
    + destruct k; try discriminate Hk; simpl; eauto.
    + destruct IH as [e He].
      destruct (GenerateSchema_node_or_error Unmarshal (StructOf fs))
        as [[sch Hs]|Herr]; [exfalso | exact Herr].
      apply GenerateSchema_struct_ok in Hs. destruct Hs as (p & r & Hloop & _).
      apply fieldsLoop_inl_nodes in Hloop. rewrite Forall_forall in Hloop.
      destruct (Hloop f) as [s' Hnode]; [now apply list_elem_of_In|].
      unfold fieldNode in Hnode. rewrite He in Hnode. discriminate Hnode.
    + destruct IH as [e He]. exists e. simpl. now rewrite He.
    + destruct IH as [e He]. exists e. simpl. now rewrite He.
    + exact IH.
  - intros elem n e He. simpl. rewrite He. auto.
  - intros pre f post p r e Hpre He.
    apply GenerateSchema_struct_fail.
    eapply fieldsLoop_first_failure; [exact Hpre|].
    unfold fieldNode. now rewrite He.
  - apply GenerateSchema_node_or_error.
Qed.

(** C4, amended, on
    [struct { ID int `json:"id"`; Pipes []chan int `json:"pipes"` }]:
    the channel two levels down fails the build with its own error. *)
Lemma unsupported_type_fails_the_build_witness :
  unsupported Chan = true /\
  nestedIn Examples.chanT Examples.withChannel /\
  GenerateSchema exampleUnmarshal Examples.withChannel
    = (None, Some (Errorf "unsupported type chan from chan int")) /\
  exists e, GenerateSchema exampleUnmarshal Examples.withChannel = (None, Some e).
Proof.
  assert (Hn : nestedIn Examples.chanT Examples.withChannel).
  { eapply nested_field with
      (f := mkField "Pipes" (SliceOf Examples.chanT) [("json", "pipes")]).
    - right. left. reflexivity.
    - apply nested_slice, nested_here. }
  split; [reflexivity|]. split; [exact Hn|]. split; [reflexivity|].
  exact (proj1 (proj2 (unsupported_type_fails_the_build exampleUnmarshal))
           Chan "chan int" Examples.withChannel eq_refl Hn).
Defined.







(** C7. A pointer type builds exactly as the type it points to. Turning
    the type of any one field into a pointer to it changes nothing in the
    result of the struct. Whether a field is optional is read off its json
    tag alone (an [omitempty] among the options after the name), and the
    required list of a successful build is the names of the fields that are
    not. *)
Theorem pointer_is_transparent
    (Unmarshal : string -> any * option error) :
  (forall elem, GenerateSchema Unmarshal (PtrOf elem) = GenerateSchema Unmarshal elem) /\
  (forall pre f post,
     GenerateSchema Unmarshal
       (StructOf (pre ++ mkField (Name f) (PtrOf (Type_ f)) (Tag f) :: post))
     = GenerateSchema Unmarshal (StructOf (pre ++ f :: post))) /\
  (forall f,
     optional f = true <->
     In "omitempty" (tl (strings.Split (Get (Tag f) "json") ","%char))) /\
  (forall fs sch, GenerateSchema Unmarshal (StructOf fs) = (Some sch, None) ->
     Required sch = requiredNames fs).
Proof.
  split; [reflexivity|]. split; [|split; [exact optional_spec|]].
  - intros pre f post. rewrite !GenerateSchema_struct, !fieldsLoop_app.
    destruct (fieldsLoop _ _ pre ∅ []) as [[p r]|]; [|reflexivity].
    rewrite !fieldsLoop_cons. destruct f as [name ty tag]. reflexivity.
  - intros fs sch H. apply GenerateSchema_struct_ok in H.
    destruct H as (p & r & Hloop & _ & _ & Hr & _).
    rewrite Hr. exact (fieldsLoop_required _ _ _ _ _ _ _ Hloop).
Qed.

(** C7, on [struct { Next *int `json:"next"`; Prev *int `json:"prev,omitempty"` }]:
    it builds as the struct whose first field is a plain [int]. *)
Lemma pointer_is_transparent_witness :
  GenerateSchema exampleUnmarshal Examples.withPointers =
  GenerateSchema exampleUnmarshal
    (StructOf [mkField "Next" Examples.intT [("json", "next")];
               mkField "Prev" (PtrOf Examples.intT) [("json", "prev,omitempty")]]).
Proof.
  exact (proj1 (proj2 (pointer_is_transparent exampleUnmarshal)) []
           (mkField "Next" Examples.intT [("json", "next")])
           [mkField "Prev" (PtrOf Examples.intT) [("json", "prev,omitempty")]]).
Defined.

(** C8. A map type yields the empty node: no kind and every other attribute
    at its zero value, with no error, whatever its key and element types
    are. *)
Theorem map_is_an_empty_node
    (Unmarshal : string -> any * option error) (key elem : Typ) :
  GenerateSchema Unmarshal (MapOf key elem) = (Some emptySchema, None) /\
  Type' emptySchema = "" /\ Description emptySchema = "" /\
  Items emptySchema = None /\ Properties emptySchema = ∅ /\
  Required emptySchema = [] /\ Format emptySchema = "" /\
  Enum emptySchema = [] /\ Default emptySchema = ANil /\
  Example emptySchema = ANil /\ Minimum emptySchema = None /\
  Maximum emptySchema = None.
Proof. repeat split. Qed.

(** C9. [GenerateSchema] is a function of the descriptor alone. Run from
    any two stores, the heap version returns the same error, or two pointers
    that read back to one and the same tree, the value of the pure
    [GenerateSchema]; it changes no node that was in the store before the
    call. So of two calls in a row on one descriptor the second leaves the
    result of the first intact and returns a different pointer to a
    deep-equal tree. *)
Theorem GenerateSchema_is_deterministic
    (Unmarshal : string -> any * option error) (t : Typ) (h1 h2 : store) :
  let run1 := GenerateSchemaM Unmarshal t h1 in
  let run2 := GenerateSchemaM Unmarshal t h2 in
  let again := GenerateSchemaM Unmarshal t (snd run1) in
  snd (fst run1) = snd (GenerateSchema Unmarshal t) /\
  snd (fst run2) = snd (GenerateSchema Unmarshal t) /\
  keeps 0%nat h1 (snd run1) /\ keeps 0%nat h2 (snd run2) /\
  match fst (fst run1), fst (fst run2), fst (fst again) with
  | Some p1, Some p2, Some p3 =>
      exists sch, GenerateSchema Unmarshal t = (Some sch, None) /\
        deepEqual (snd run1) p1 (snd run2) p2 sch /\
        p1 <> p3 /\ deepEqual (snd again) p1 (snd again) p3 sch
  | None, None, None =>
      exists e, GenerateSchema Unmarshal t = (None, Some e)
  | _, _, _ => False
  end.
Proof.
  intros run1 run2 again.
  pose proof (GenerateSchemaM_refines Unmarshal t h1) as R1.
  pose proof (GenerateSchemaM_refines Unmarshal t h2) as R2.
  pose proof (GenerateSchemaM_refines Unmarshal t (snd run1)) as R3.
  fold run1 in R1. fold run2 in R2. fold again in R3.
  destruct run1 as [[o1 e1] h1'], run2 as [[o2 e2] h2'], again as [[o3 e3] h3'].
  unfold refines in *. simpl in *.
  destruct (GenerateSchema Unmarshal t) as [os oe].
  destruct R1 as [K1 R1], R2 as [K2 R2], R3 as [K3 R3].
  destruct o1 as [p1|], e1 as [x1|], os as [sch|], oe as [e|]; try contradiction;
  destruct o2 as [p2|], e2 as [x2|]; try contradiction;
  destruct o3 as [p3|], e3 as [x3|]; try contradiction; simpl.
  - destruct R1 as [L1 Hr1], R2 as [L2 Hr2], R3 as [L3 Hr3].
    repeat split; try assumption.
    exists sch. split; [reflexivity|].
    pose proof (reads_lookup _ _ _ Hr1) as Hlt.
    repeat split; try assumption; try lia.
    eapply reads_keeps; [exact Hr1|]. apply (keeps_weaken 0); [lia | exact K3].
  - subst. repeat split; try assumption. eauto.
Qed.

(** C9, on [struct { name string; age int `json:"age,omitempty"` }] built
    twice in a row from the empty store: the first call returns the address
    0, the second the address 5, and in the final store both read back to
    the tree the pure function returns. *)
Lemma GenerateSchema_is_deterministic_witness :
  let run1 := GenerateSchemaM exampleUnmarshal Examples.person [] in
  let again := GenerateSchemaM exampleUnmarshal Examples.person (snd run1) in
  fst run1 = (Some 0%nat, None) /\ fst again = (Some 5%nat, None) /\
  exists sch,
    GenerateSchema exampleUnmarshal Examples.person = (Some sch, None) /\
    deepEqual (snd again) 0%nat (snd again) 5%nat sch.
Proof.
  intros run1 again.
  split; [reflexivity|]. split; [reflexivity|].
  destruct (GenerateSchema_is_deterministic exampleUnmarshal Examples.person [] [])
    as (_ & _ & _ & _ & sch & Hs & _ & _ & Hd).
  exists sch. split; [exact Hs | exact Hd].
Defined.

(** C10. A field whose json tag has the name part ["-"] is not skipped: in
    every successful build of its struct ["-"] is a key of the properties,
    and it is in the required list whenever the tag has no [omitempty]
    option. *)
Theorem dash_name_is_a_property
    (Unmarshal : string -> any * option error)
    (pre post : list (StructField Typ)) (f : StructField Typ)
    (opts : list string) (sch : Schema) :
  jsonTags f = "-" :: opts ->
  GenerateSchema Unmarshal (StructOf (pre ++ f :: post)) = (Some sch, None) ->
  fieldName f = "-" /\
  is_Some (Properties sch !! "-") /\
  (~ In "omitempty" opts -> In "-" (Required sch)).
Proof.
  intros Htags Hgs.
  assert (Hname : fieldName f = "-") by (unfold fieldName; now rewrite Htags).
  split; [exact Hname|].
  apply GenerateSchema_struct_ok in Hgs.
  destruct Hgs as (p & r & Hloop & _ & Hp & Hr & _).
  split.
  - apply elem_of_dom. rewrite Hp, (fieldsLoop_dom _ _ _ _ _ _ _ Hloop).
    rewrite map_app. simpl. rewrite Hname. set_solver.
  - intros Hopt. rewrite Hr, (fieldsLoop_required _ _ _ _ _ _ _ Hloop). simpl.
    unfold requiredNames. apply in_map_iff. exists f. split; [exact Hname|].
    apply filter_In. split; [apply in_elt|].
    apply negb_true_iff. apply not_true_is_false. intros Ho.
    apply optional_spec in Ho. rewrite Htags in Ho. simpl in Ho. contradiction.
Qed.

(** C10, on [struct { Secret string `json:"-"` }]. *)
Lemma dash_name_is_a_property_witness :
  exists sch,
    GenerateSchema exampleUnmarshal Examples.hidden = (Some sch, None) /\
    is_Some (Properties sch !! "-") /\ In "-" (Required sch).
Proof.
  eexists. split; [reflexivity|].
  pose proof (dash_name_is_a_property exampleUnmarshal [] []
    (mkField "Secret" Examples.stringT [("json", "-")]) [] _
    eq_refl eq_refl) as (_ & Hp & Hr).
  split; [exact Hp | apply Hr; intros []].
Defined.

(** ** The range of [Atoi] *)

Lemma parseDigits_range (s : string) : forall n m,
  0 <= n < 2 ^ 64 -> strconv.parseDigits s n = inl m -> 0 <= m < 2 ^ 64.
Proof.
  induction s as [|c rest IH]; intros n m Hn; simpl.
  - intros [= <-]. exact Hn.
  - destruct (strconv.isDigit c) eqn:Hd; [|discriminate].
    destruct (2 ^ 64 <=? n * 10 + strconv.digitVal c)%Z eqn:Hr; [discriminate|].
    apply IH. apply Z.leb_gt in Hr. split; [|exact Hr].
    unfold strconv.isDigit in Hd. apply andb_prop in Hd. destruct Hd as [Hlo _].
    apply Z.leb_le in Hlo. unfold strconv.digitVal. lia.
Qed.

(** A text [Atoi] accepts is read to a value of Go's [int]. *)
Lemma Atoi_range (d : string) (v : Z) :
  strconv.Atoi d = (v, None) -> inIntRange (Some v).
Proof.
  unfold strconv.Atoi, inIntRange, strconv.intSize. intros H.
  destruct d as [|c rest]; [discriminate|].
  set (neg := Ascii.eqb c "-"%char) in *.
  set (digits := if neg || Ascii.eqb c "+"%char then rest else String c rest) in *.
  destruct digits as [|c0 r0] eqn:Hdig; [discriminate|].
  destruct (strconv.parseDigits (String c0 r0) 0) as [un|[|]] eqn:Hp;
    [|discriminate|destruct neg; discriminate].
  apply parseDigits_range in Hp; [|lia].
  change (2 ^ (64 - 1)) with 9223372036854775808 in *.
  destruct neg; simpl in H.
  - destruct (9223372036854775808 <? un)%Z eqn:Hc; [discriminate|].
    apply Z.ltb_ge in Hc. injection H as <-. lia.
  - destruct (9223372036854775808 <=? un)%Z eqn:Hc; [discriminate|].
    apply Z.leb_gt in Hc. injection H as <-. lia.
Qed.

(** ** Where the entries of [properties] come from *)

Section Entries.

Variable Unmarshal : string -> any * option error.
Variable gen : Typ -> option Schema * option error.

Implicit Types (f g : StructField Typ) (fs pre post : list (StructField Typ)).
Implicit Types (p : gmap string Schema) (r : list string).

(** The node of a field is the node of its type, refined by its tags. *)
Lemma fieldNode_inl f c :
  fieldNode Unmarshal gen f = inl c <->
  exists s, gen (Type_ f) = (Some s, None) /\ applyTags Unmarshal (Tag f) s = inl c.
Proof.
  unfold fieldNode. split.
  - destruct (gen (Type_ f)) as [[s|] [e|]]; try discriminate.
    destruct (applyTags Unmarshal (Tag f) s) as [s'|] eqn:Ha; [|discriminate].
    intros [= <-]. eauto.
  - intros (s & -> & ->). reflexivity.
Qed.

(** Every entry the loop leaves was there before or is the node of a field. *)
Lemma fieldsLoop_entry fs : forall p r p' r' k c,
  fieldsLoop Unmarshal gen fs p r = inl (p', r') ->
  p' !! k = Some c ->
  p !! k = Some c \/
  exists f, In f fs /\ fieldName f = k /\ fieldNode Unmarshal gen f = inl c.
Proof.
  induction fs as [|f fs IH]; intros p r p' r' k c.
  - simpl. intros [= <- _] H. now left.
  - rewrite fieldsLoop_cons.
    destruct (fieldNode Unmarshal gen f) as [s|] eqn:Hn; [|discriminate].
    intros Hl Hk. destruct (IH _ _ _ _ _ _ Hl Hk) as [H|(g & Hin & Hg & Hc)].
    + destruct (decide (fieldName f = k)) as [Heq|Hne].
      * rewrite Heq, lookup_insert_eq in H. injection H as <-.
        right. exists f. split; [now left|]. auto.
      * rewrite lookup_insert_ne in H by exact Hne. now left.
    + right. exists g. split; [now right|]. auto.
Qed.

(** A failure of the loop is the failure of one of its fields. *)
Lemma fieldsLoop_failure fs : forall p r x,
  fieldsLoop Unmarshal gen fs p r = inr x ->
  exists f, In f fs /\ fieldNode Unmarshal gen f = inr x.
Proof.
  induction fs as [|f fs IH]; intros p r x; [discriminate|].
  rewrite fieldsLoop_cons.
  destruct (fieldNode Unmarshal gen f) as [s|y] eqn:Hn.
  - intros H. destruct (IH _ _ _ H) as (g & Hin & Hg). exists g. split; [now right | exact Hg].
  - intros [= <-]. exists f. split; [now left | exact Hn].
Qed.

End Entries.

(** ** The shape of the nodes *)

Section Shape.

Variable Unmarshal : string -> any * option error.

Local Abbreviation GS := (GenerateSchema Unmarshal).
Local Abbreviation loop := (fieldsLoop Unmarshal (GenerateSchema Unmarshal)).

Implicit Types (f g : StructField Typ) (fs pre post : list (StructField Typ)).
Implicit Types (s c n sch : Schema).

(** The node of a struct: what the loop did not set is at its zero value. *)
Lemma GenerateSchema_struct_scalars fs sch :
  GS (StructOf fs) = (Some sch, None) ->
  Description sch = "" /\ Enum sch = [] /\ Example sch = ANil /\
  Minimum sch = None /\ Maximum sch = None /\ Format sch = "" /\ Default sch = ANil.
Proof.
  rewrite GenerateSchema_struct.
  destruct (loop fs ∅ []) as [[p r]|[o e]] eqn:Hl.
  - intros [= <-].
    destruct (0 <? Z.of_nat (size p))%Z, (0 <? Z.of_nat (length r))%Z; simpl; auto 10.
  - intros [= -> ->]. apply fieldsLoop_inr_None in Hl. discriminate.
Qed.

(** The node of a slice or an array. *)
Lemma GenerateSchema_slice elem sch :
  GS (SliceOf elem) = (Some sch, None) <->
  exists s, GS elem = (Some s, None) /\
            sch = setItems (Some s) (setType "array" emptySchema).
Proof.
  simpl. split.
  - destruct (GenerateSchema_node_or_error Unmarshal elem) as [[s ->]|[e ->]];
      [|discriminate].
    intros [= <-]. eauto.
  - intros (s & -> & ->). reflexivity.
Qed.

Lemma requiredNames_In fs x :
  In x (requiredNames fs) -> In x (map fieldName fs).
Proof.
  unfold requiredNames. rewrite !in_map_iff.
  intros (f & <- & Hf). apply filter_In in Hf. exists f. tauto.
Qed.

(** What [GenerateSchema] returns, at the root: a node whose attributes agree
    with its kind, that no tag has touched and that has neither format nor
    default. *)
Lemma root_shape t : forall s,
  GS t = (Some s, None) ->
  wellKinded s /\ untagged s /\ Format s = "" /\ Default s = ANil.
Proof.
  induction t as [k str|fs _|key elem _ _|elem _|len elem _|elem IH]
    using Typ_fields_ind; intros s H.
  - destruct k; simpl in H; try discriminate H; injection H as <-;
      (split; [|split; [|split]]); try reflexivity;
      unfold wellKinded, untagged, kindNames; simpl;
      repeat split; auto 10; try tauto; try discriminate;
      try (intros [x Hx]; discriminate Hx).
  - pose proof (GenerateSchema_struct_scalars _ _ H) as (Hd & He & Hex & Hmi & Hma & Hf & Hdf).
    apply GenerateSchema_struct_ok in H.
    destruct H as (p & r & Hl & Hty & Hp & Hr & Hi).
    split; [|split; [|split]]; try assumption.
    + unfold wellKinded. rewrite Hty, Hi.
      split; [|split; [|split; [|split]]].
      * unfold kindNames. simpl. auto.
      * split; [intros [x Hsome]; discriminate Hsome | discriminate].
      * reflexivity.
      * reflexivity.
      * intros x Hx. rewrite Hr in Hx.
        rewrite (fieldsLoop_required _ _ _ _ _ _ _ Hl) in Hx. simpl in Hx.
        apply requiredNames_In in Hx.
        apply (elem_of_dom (D := gset string)). rewrite Hp.
        rewrite (fieldsLoop_dom _ _ _ _ _ _ _ Hl).
        apply elem_of_union_r, elem_of_list_to_set, list_elem_of_In. exact Hx.
    + unfold untagged. auto 10.
  - simpl in H. injection H as <-.
    unfold wellKinded, untagged, kindNames; simpl.
    repeat split; auto 10; try tauto; try discriminate;
      try (intros [x Hx]; discriminate Hx).
  - apply GenerateSchema_slice in H. destruct H as (c & _ & ->).
    unfold wellKinded, untagged, kindNames; simpl.
    repeat split; eauto 10; try tauto; try discriminate.
  - change (GS (ArrayOf len elem)) with (GS (SliceOf elem)) in H.
    apply GenerateSchema_slice in H. destruct H as (c & _ & ->).
    unfold wellKinded, untagged, kindNames; simpl.
    repeat split; eauto 10; try tauto; try discriminate.
  - apply IH. exact H.
Qed.

(** The tags keep the agreement of a node with its kind. *)
Lemma applyTags_wellKinded tag s s' :
  wellKinded s -> applyTags Unmarshal tag s = inl s' -> wellKinded s'.
Proof.
  intros Hw H. apply applyTags_Type in H. destruct H as (Ht & Hi & Hp & Hr).
  unfold wellKinded. rewrite Ht, Hi, Hp, Hr. exact Hw.
Qed.

(** The tags set neither format nor default. *)
Lemma applyTags_Format tag s s' :
  applyTags Unmarshal tag s = inl s' ->
  Format s' = Format s /\ Default s' = Default s.
Proof.
  unfold applyTags. intros H.
  repeat match type of H with
         | context [Lookup ?t ?k] => destruct (Lookup t k) eqn:?
         | context [strconv.Atoi ?d] => destruct (strconv.Atoi d) as [? [?|]] eqn:?
         | context [String.eqb ?a ?b] => destruct (String.eqb a b) eqn:?
         | context [Unmarshal ?e] => destruct (Unmarshal e) as [? [?|]] eqn:?
         end; simpl in H; try discriminate H; injection H as <-; simpl; auto.
Qed.

(** A property that holds of every root and that the tags keep holds of every
    node of every tree. *)
Lemma GenerateSchema_everywhere (P : Schema -> Prop) :
  (forall t s, GS t = (Some s, None) -> P s) ->
  (forall tag s s', P s -> applyTags Unmarshal tag s = inl s' -> P s') ->
  forall t sch n, GS t = (Some sch, None) -> inTree n sch -> P n.
Proof.
  intros Hroot Htags.
  induction t as [k str|fs IH|key elem _ _|elem IH|len elem IH|elem IH]
    using Typ_fields_ind; intros sch n H Hin.
  - inversion Hin as [|s c Hi Hc|s k' c Hp Hc]; subst.
    + eapply Hroot; eauto.
    + destruct k; simpl in H; try discriminate H; injection H as <-; discriminate Hi.
    + destruct k; simpl in H; try discriminate H; injection H as <-;
        simpl in Hp; rewrite lookup_empty in Hp; discriminate Hp.
  - inversion Hin as [|s c Hi Hc|s k c Hp Hc]; subst.
    + eapply Hroot; eauto.
    + apply GenerateSchema_struct_ok in H. destruct H as (p & r & _ & _ & _ & _ & Hi').
      congruence.
    + apply GenerateSchema_struct_ok in H. destruct H as (p & r & Hl & _ & Hp' & _ & _).
      rewrite Hp' in Hp.
      destruct (fieldsLoop_entry _ _ _ _ _ _ _ _ _ Hl Hp) as [He|(f & Hf & _ & Hn)];
        [rewrite lookup_empty in He; discriminate He|].
      apply fieldNode_inl in Hn. destruct Hn as (s0 & Hs0 & Ha).
      rewrite Forall_forall in IH.
      assert (IHf := IH f (proj2 (list_elem_of_In _ _) Hf) s0).
      destruct (applyTags_Type _ _ _ _ Ha) as (_ & Hi0 & Hp0 & _).
      inversion Hc as [|s1 c1 Hi1 Hc1|s1 k1 c1 Hp1 Hc1]; subst.
      * eapply Htags; [|exact Ha]. eapply Hroot; eauto.
      * rewrite Hi0 in Hi1. apply (IHf n Hs0). eapply in_items; eauto.
      * rewrite Hp0 in Hp1. apply (IHf n Hs0). eapply in_property; eauto.
  - simpl in H. injection H as <-.
    inversion Hin as [|s c Hi Hc|s k c Hp Hc]; subst.
    + apply (Hroot (MapOf key elem)). reflexivity.
    + discriminate Hi.
    + simpl in Hp. rewrite lookup_empty in Hp. discriminate Hp.
  - pose proof H as H0. apply GenerateSchema_slice in H. destruct H as (c0 & Hc0 & ->).
    inversion Hin as [|s c Hi Hc|s k c Hp Hc]; subst.
    + eapply Hroot; eauto.
    + simpl in Hi. injection Hi as <-. eapply IH; eauto.
    + simpl in Hp. rewrite lookup_empty in Hp. discriminate Hp.
  - change (GS (ArrayOf len elem)) with (GS (SliceOf elem)) in H.
    pose proof H as H0. apply GenerateSchema_slice in H. destruct H as (c0 & Hc0 & ->).
    inversion Hin as [|s c Hi Hc|s k c Hp Hc]; subst.
    + eapply Hroot; eauto.
    + simpl in Hi. injection Hi as <-. eapply IH; eauto.
    + simpl in Hp. rewrite lookup_empty in Hp. discriminate Hp.
  - eapply IH; eauto.
Qed.

End Shape.

(** ** The outcomes of a build *)

Section Outcomes.

Variable Unmarshal : string -> any * option error.

Local Abbreviation GS := (GenerateSchema Unmarshal).
Local Abbreviation loop := (fieldsLoop Unmarshal (GenerateSchema Unmarshal)).

Implicit Types (f g : StructField Typ) (fs pre post : list (StructField Typ)).
Implicit Types (s c n sch : Schema) (tag : StructTag).

(** An error of the [default] arm. *)
Lemma leafSchema_error k str o e :
  leafSchema k str = (o, Some e) ->
  unsupported k = true /\
  e = Errorf ("unsupported type " ++ Kind_String k ++ " from " ++ str).
Proof. destruct k; simpl; intros [= <- <-] || intros [=]; auto. Qed.

(** An error of the tags is [Atoi]'s on a bound or the decoder's on an
    example of a node that is not of kind string. *)
Lemma applyTags_error tag s e :
  applyTags Unmarshal tag s = inr e ->
  (exists d v, (Lookup tag "minimum" = Some d \/ Lookup tag "maximum" = Some d) /\
               strconv.Atoi d = (v, Some e)) \/
  (exists x v, Lookup tag "example" = Some x /\ Type' s <> "string" /\
               Unmarshal x = (v, Some e)).
Proof.
  unfold applyTags. intros H.
  destruct (Lookup tag "minimum") as [d0|] eqn:Hmin.
  - destruct (strconv.Atoi d0) as [v0 [e0|]] eqn:Ha0.
    { injection H as <-. left. eauto. }
    destruct (Lookup tag "maximum") as [d1|] eqn:Hmax.
    + destruct (strconv.Atoi d1) as [v1 [e1|]] eqn:Ha1.
      { injection H as <-. left. eauto. }
      destruct (Lookup tag "example") as [x|]; [|discriminate].
      destruct (Lookup tag "description"), (Lookup tag "enum"); simpl in H;
        (destruct (String.eqb_spec (Type' s) "string"); [discriminate|]);
        (destruct (Unmarshal x) as [v [ex|]] eqn:Hu; [|discriminate]);
        injection H as <-; right; eauto.
    + destruct (Lookup tag "example") as [x|]; [|discriminate].
      destruct (Lookup tag "description"), (Lookup tag "enum"); simpl in H;
        (destruct (String.eqb_spec (Type' s) "string"); [discriminate|]);
        (destruct (Unmarshal x) as [v [ex|]] eqn:Hu; [|discriminate]);
        injection H as <-; right; eauto.
  - destruct (Lookup tag "maximum") as [d1|] eqn:Hmax.
    + destruct (strconv.Atoi d1) as [v1 [e1|]] eqn:Ha1.
      { injection H as <-. left. eauto. }
      destruct (Lookup tag "example") as [x|]; [|discriminate].
      destruct (Lookup tag "description"), (Lookup tag "enum"); simpl in H;
        (destruct (String.eqb_spec (Type' s) "string"); [discriminate|]);
        (destruct (Unmarshal x) as [v [ex|]] eqn:Hu; [|discriminate]);
        injection H as <-; right; eauto.
    + destruct (Lookup tag "example") as [x|]; [|discriminate].
      destruct (Lookup tag "description"), (Lookup tag "enum"); simpl in H;
        (destruct (String.eqb_spec (Type' s) "string"); [discriminate|]);
        (destruct (Unmarshal x) as [v [ex|]] eqn:Hu; [|discriminate]);
        injection H as <-; right; eauto.
Qed.

Lemma fieldIn_field f fs : In f fs -> fieldIn f (StructOf fs).
Proof. intros H. exists fs. split; [apply nested_here | exact H]. Qed.

Lemma fieldIn_below g f fs : In f fs -> fieldIn g (Type_ f) -> fieldIn g (StructOf fs).
Proof.
  intros Hf (gs & Hn & Hg). exists gs. split; [|exact Hg].
  eapply nested_field; eauto.
Qed.

Lemma fieldIn_slice g elem : fieldIn g elem -> fieldIn g (SliceOf elem).
Proof. intros (gs & Hn & Hg). exists gs. split; [now apply nested_slice | exact Hg]. Qed.

Lemma fieldIn_array g (len : Z) elem : fieldIn g elem -> fieldIn g (ArrayOf len elem).
Proof. intros (gs & Hn & Hg). exists gs. split; [now apply nested_array | exact Hg]. Qed.

Lemma fieldIn_ptr g elem : fieldIn g elem -> fieldIn g (PtrOf elem).
Proof. intros (gs & Hn & Hg). exists gs. split; [now apply nested_ptr | exact Hg]. Qed.

(** The fields of a descriptor, from the top. *)
Lemma fieldIn_inv g t :
  fieldIn g t ->
  match t with
  | Leaf _ _ | MapOf _ _ => False
  | StructOf fs => In g fs \/ exists f, In f fs /\ fieldIn g (Type_ f)
  | SliceOf elem | ArrayOf _ elem | PtrOf elem => fieldIn g elem
  end.
Proof.
  intros (gs & Hn & Hg).
  inversion Hn as [|fs f Hf Hn'|elem Hn'|n elem Hn'|elem Hn']; subst.
  - now left.
  - right. exists f. split; [exact Hf|]. exists gs. auto.
  - exists gs. auto.
  - exists gs. auto.
  - exists gs. auto.
Qed.

(** The struct builds exactly when each of its fields does. *)
Lemma fieldNode_builds f :
  (exists c, fieldNode Unmarshal GS f = inl c) <-> fieldBuilds Unmarshal f.
Proof.
  split.
  - intros [c Hc]. apply fieldNode_inl in Hc. destruct Hc as (s & Hs & Ha).
    exists s. split; [exact Hs|].
    split; [exact (proj2 (proj2 (applyTags_bounds _ _ _ _ Ha)))|].
    intros e He. destruct (applyTags_example _ _ _ _ _ Ha He) as [[Ht _]|[_ Hu]].
    + now left.
    + right. now rewrite Hu.
  - intros (s & Hs & Hb & He).
    destruct (applyTags_succeeds Unmarshal (Tag f) s Hb He) as [c Hc].
    exists c. apply fieldNode_inl. eauto.
Qed.

(** The struct builds exactly when every field yields a node. *)
Lemma GenerateSchema_struct_builds fs :
  (exists sch, GS (StructOf fs) = (Some sch, None)) <->
  Forall (fun f => exists c, fieldNode Unmarshal GS f = inl c) fs.
Proof.
  split.
  - intros [sch H]. apply GenerateSchema_struct_ok in H.
    destruct H as (p & r & Hl & _). now apply fieldsLoop_inl_nodes in Hl.
  - intros Hn.
    destruct (fieldsLoop_nodes_inl Unmarshal _ fs ∅ [] Hn) as (p & r & Hl).
    rewrite GenerateSchema_struct, Hl. eauto.
Qed.

End Outcomes.

(** ** The decoder *)

Section Decoders.

Variables Unmarshal1 Unmarshal2 : string -> any * option error.

Lemma applyTags_ext (tag : StructTag) (s : Schema) :
  (forall x, Lookup tag "example" = Some x -> Unmarshal1 x = Unmarshal2 x) ->
  applyTags Unmarshal1 tag s = applyTags Unmarshal2 tag s.
Proof.
  intros H. unfold applyTags.
  destruct (Lookup tag "example") as [x|]; [|reflexivity].
  now rewrite (H x eq_refl).
Qed.

Lemma fieldsLoop_ext (g1 g2 : Typ -> option Schema * option error)
    (fs : list (StructField Typ)) :
  Forall (fun f => g1 (Type_ f) = g2 (Type_ f) /\
                   forall x, Lookup (Tag f) "example" = Some x ->
                             Unmarshal1 x = Unmarshal2 x) fs ->
  forall p r, fieldsLoop Unmarshal1 g1 fs p r = fieldsLoop Unmarshal2 g2 fs p r.
Proof.
  induction 1 as [|f fs [Hg Hx] _ IH]; intros p r; [reflexivity|].
  rewrite !fieldsLoop_cons. unfold fieldNode. rewrite Hg.
  destruct (g2 (Type_ f)) as [[s|] [e|]]; try reflexivity.
  rewrite (applyTags_ext _ _ Hx).
  destruct (applyTags Unmarshal2 (Tag f) s); [apply IH | reflexivity].
Qed.

End Decoders.

(** ** [Split] and its inverse *)

(** Joining the parts with the separator gives the text back. *)
Lemma Split_concat (s : string) (sep : ascii) :
  String.concat (String sep "") (strings.Split s sep) = s.
Proof.
  induction s as [|c rest IH]; [reflexivity|].
  simpl strings.Split.
  destruct (Split_cons rest sep) as (h & t & Hs). rewrite Hs in *.
  destruct (Ascii.eqb_spec c sep) as [->|Hne].
  - change (String.concat (String sep "") ("" :: h :: t))
      with (String sep (String.concat (String sep "") (h :: t))).
    now rewrite IH.
  - destruct t as [|h' t].
    + simpl in *. now rewrite IH.
    + change (String.concat (String sep "") (String c h :: h' :: t))
        with (String c (String.concat (String sep "") (h :: h' :: t))).
      now rewrite IH.
Qed.

(** No part holds the separator. *)
Lemma Split_parts (s : string) (sep : ascii) :
  Forall (fun part => ~ hasByte sep part) (strings.Split s sep).
Proof.
  induction s as [|c rest IH]; simpl.
  - constructor; [intros [] | constructor].
  - destruct (Ascii.eqb_spec c sep) as [->|Hne].
    + constructor; [intros [] | exact IH].
    + destruct (strings.Split rest sep) as [|h t].
      * constructor; [|constructor]. intros [H|[]]. congruence.
      * inversion IH as [|? ? Hh Ht]; subst. constructor; [|exact Ht].
        intros [H|H]; [congruence | exact (Hh H)].
Qed.

(** A text without the separator is its own single part. *)
Lemma Split_whole (s : string) (sep : ascii) :
  ~ hasByte sep s -> strings.Split s sep = [s].
Proof.
  induction s as [|c rest IH]; [reflexivity|].
  intros H. simpl.
  destruct (Ascii.eqb_spec c sep) as [->|Hne]; [exfalso; apply H; now left|].
  rewrite IH; [reflexivity|]. intros Hr. apply H. now right.
Qed.

Lemma enumOf_map (e : string) :
  enumOf e = map AString (strings.Split e ","%char).
Proof.
  unfold enumOf.
  assert (G : forall l acc,
    fold_left (fun acc v => (acc ++ [AString v])%list) l acc
    = (acc ++ map AString l)%list).
  { induction l as [|x l IH]; intros acc; simpl.
    - now rewrite app_nil_r.
    - rewrite IH, <- app_assoc. reflexivity. }
  apply (G _ []).
Qed.

(** ** The description and the enum *)

Section Annotations.

Variable Unmarshal : string -> any * option error.

(** The description and the enum after the tags. *)
Lemma applyTags_description (tag : StructTag) (s s' : Schema) :
  applyTags Unmarshal tag s = inl s' ->
  Description s' = match Lookup tag "description" with
                   | Some d => d
                   | None => Description s
                   end /\
  Enum s' = match Lookup tag "enum" with
            | Some e => enumOf e
            | None => Enum s
            end.
Proof.
  unfold applyTags. intros H.
  repeat match type of H with
         | context [Lookup ?t ?k] => destruct (Lookup t k) eqn:?
         | context [strconv.Atoi ?d] => destruct (strconv.Atoi d) as [? [?|]] eqn:?
         | context [String.eqb ?a ?b] => destruct (String.eqb a b) eqn:?
         | context [Unmarshal ?e] => destruct (Unmarshal e) as [? [?|]] eqn:?
         end; simpl in H; try discriminate H; injection H as <-; simpl; auto.
Qed.

End Annotations.

(** ** Order of the fields *)

Lemma filter_Permutation' {A} (P : A -> bool) (l l' : list A) :
  Permutation l l' -> Permutation (List.filter P l) (List.filter P l').
Proof.
  induction 1 as [|x l l' _ IH|x y l|l l' l'' _ IH1 _ IH2]; simpl.
  - constructor.
  - destruct (P x); [now constructor | exact IH].
  - destruct (P x), (P y); try reflexivity. constructor.
  - etransitivity; eauto.
Qed.

Lemma requiredNames_Permutation (fs fs' : list (StructField Typ)) :
  Permutation fs fs' -> Permutation (requiredNames fs) (requiredNames fs').
Proof.
  intros H. unfold requiredNames. apply Permutation_map, filter_Permutation', H.
Qed.

Section Order.

Variable Unmarshal : string -> any * option error.
Variable gen : Typ -> option Schema * option error.

Implicit Types (f g : StructField Typ) (fs pre post : list (StructField Typ)).
Implicit Types (p : gmap string Schema) (r : list string).

(** With distinct names, the entry of every field is its node. *)
Lemma fieldsLoop_lookup_NoDup fs p r p' r' f :
  fieldsLoop Unmarshal gen fs p r = inl (p', r') ->
  NoDup (map fieldName fs) ->
  In f fs ->
  exists c, fieldNode Unmarshal gen f = inl c /\ p' !! fieldName f = Some c.
Proof.
  intros Hl Hnd Hin.
  destruct (in_split _ _ Hin) as (pre & post & ->).
  apply (fieldsLoop_lookup _ _ _ _ _ _ _ _ _ Hl).
  rewrite map_app in Hnd. simpl in Hnd.
  apply NoDup_app in Hnd. destruct Hnd as (_ & _ & Hnd).
  apply NoDup_cons in Hnd. destruct Hnd as [Hnot _].
  apply Forall_forall. intros g Hg Heq. apply Hnot.
  rewrite <- Heq. apply list_elem_of_fmap. exists g. auto.
Qed.

(** With distinct names, the entries do not depend on the order of the
    fields. *)
Lemma fieldsLoop_Permutation fs fs' p1 r1 p2 r2 :
  Permutation fs fs' ->
  NoDup (map fieldName fs) ->
  fieldsLoop Unmarshal gen fs ∅ [] = inl (p1, r1) ->
  fieldsLoop Unmarshal gen fs' ∅ [] = inl (p2, r2) ->
  p1 = p2.
Proof.
  intros Hperm Hnd H1 H2.
  assert (Hnd' : NoDup (map fieldName fs')).
  { assert (Hm : Permutation (map fieldName fs) (map fieldName fs'))
      by (now apply Permutation_map).
    now rewrite <- Hm. }
  assert (Hsub : forall fsa fsb pa ra pb rb,
    Permutation fsa fsb -> NoDup (map fieldName fsb) ->
    fieldsLoop Unmarshal gen fsa ∅ [] = inl (pa, ra) ->
    fieldsLoop Unmarshal gen fsb ∅ [] = inl (pb, rb) ->
    forall k c, pa !! k = Some c -> pb !! k = Some c).
  { intros fsa fsb pa ra pb rb Hp Hn Ha Hb k c Hk.
    destruct (fieldsLoop_entry _ _ _ _ _ _ _ _ _ Ha Hk) as [He|(f & Hf & <- & Hc)];
      [rewrite lookup_empty in He; discriminate He|].
    assert (Hf' : In f fsb) by (eapply Permutation_in; eauto).
    destruct (fieldsLoop_lookup_NoDup _ _ _ _ _ _ Hb Hn Hf') as (c' & Hc' & Hk').
    congruence. }
  apply map_eq. intros k.
  destruct (p1 !! k) as [c|] eqn:Hk1.
  - symmetry. eapply (Hsub fs fs'); eauto.
  - destruct (p2 !! k) as [c|] eqn:Hk2; [|reflexivity].
    apply (Hsub fs' fs _ _ _ _ (Permutation_sym Hperm) Hnd H2 H1) in Hk2. congruence.
Qed.

End Order.

(** ** The keys of a tag *)

Section Keys.

Variable Unmarshal : string -> any * option error.

Lemma applyTags_sameReadKeys (tag tag' : StructTag) (s : Schema) :
  sameReadKeys tag tag' ->
  applyTags Unmarshal tag s = applyTags Unmarshal tag' s.
Proof.
  intros H. unfold applyTags.
  rewrite (H "description"), (H "enum"), (H "minimum"), (H "maximum"), (H "example");
    [reflexivity | unfold readKeys; simpl; auto 10 ..].
Qed.

Lemma fieldName_sameReadKeys (f f' : StructField Typ) :
  sameReadKeys (Tag f) (Tag f') ->
  fieldName f = fieldName f' /\ optional f = optional f'.
Proof.
  intros H. rewrite !fieldName_hd. unfold optional, jsonTags, Get.
  rewrite (H "json"); [auto | now left].
Qed.

Lemma fieldsLoop_sameReadKeys (gen : Typ -> option Schema * option error)
    (fs fs' : list (StructField Typ)) :
  Forall2 (fun f f' => gen (Type_ f) = gen (Type_ f') /\
                       sameReadKeys (Tag f) (Tag f')) fs fs' ->
  forall p r, fieldsLoop Unmarshal gen fs p r = fieldsLoop Unmarshal gen fs' p r.
Proof.
  induction 1 as [|f f' fs fs' [Ht Hk] _ IH]; intros p r; [reflexivity|].
  rewrite !fieldsLoop_cons. unfold fieldNode. rewrite Ht.
  destruct (fieldName_sameReadKeys f f' Hk) as [-> ->].
  destruct (gen (Type_ f')) as [[s|] [e|]]; try reflexivity.
  rewrite (applyTags_sameReadKeys _ _ s Hk).
  destruct (applyTags Unmarshal (Tag f') s); [apply IH | reflexivity].
Qed.

End Keys.

(** ** Walks and the tree read back *)

(** What a walk reaches from a pointer that reads back to a tree reads back
    to a node of that tree. *)
Lemma walk_reads (h : store) (p q : ptr) (path : list (option string)) :
  walk h p path q ->
  forall s, reads h p s -> exists c, inTree c s /\ reads h q c.
Proof.
  induction 1 as [p|p n e c path q Hn Hc _ IH]; intros s Hs.
  - exists s. split; [apply in_here | exact Hs].
  - destruct Hs as [[|d] Hd]; [destruct Hd|].
    destruct Hd as (n' & Hn' & _ & Hi & Hp).
    assert (n' = n) by congruence. subst n'.
    destruct e as [k|]; simpl in Hc.
    + specialize (Hp k). rewrite Hc in Hp.
      destruct (Properties s !! k) as [c0|] eqn:Hp0; [|destruct Hp].
      destruct Hp as [_ Hr].
      destruct (IH c0 (ex_intro _ d Hr)) as (c1 & Hin & Hr1).
      exists c1. split; [|exact Hr1]. eapply in_property; eauto.
    + rewrite Hc in Hi. destruct (Items s) as [c0|] eqn:Hi0; [|destruct Hi].
      destruct Hi as [_ Hr].
      destruct (IH c0 (ex_intro _ d Hr)) as (c1 & Hin & Hr1).
      exists c1. split; [|exact Hr1]. eapply in_items; eauto.
Qed.

(** ** Trees in the store *)

Section Trees.

Implicit Types (h : store) (p q a : ptr) (n m : Node) (lo hi : nat).

(** A tree depends only on the addresses of its range. *)
Lemma tree_frame h h' p lo hi :
  tree h p lo hi ->
  (forall x n, (lo <= x < hi)%nat -> h !! x = Some n -> h' !! x = Some n) ->
  tree h' p lo hi.
Proof.
  induction 1 as [p lo hi n iv Hn Hp Hiv _ IH Hd]; intros Hf.
  apply (tree_node h' p lo hi n iv);
    [apply Hf; [lia | exact Hn] | exact Hp | exact Hiv | | exact Hd].
  intros e c Hc. apply (IH e c Hc).
  intros x m Hx. apply Hf. destruct (Hiv e c Hc). lia.
Qed.

Lemma tree_widen h p lo hi lo' hi' :
  tree h p lo hi -> (lo' <= lo)%nat -> (hi <= hi')%nat -> tree h p lo' hi'.
Proof.
  intros [p0 lo0 hi0 n iv Hn Hp Hiv Ht Hd] Hlo Hhi.
  apply (tree_node h p0 lo' hi' n iv); [exact Hn | lia | | exact Ht | exact Hd].
  intros e c Hc. destruct (Hiv e c Hc). lia.
Qed.

(** A node without pointers is a tree. *)
Lemma tree_leaf h p lo hi n :
  h !! p = Some n -> (lo <= p < hi)%nat ->
  nItems n = None -> nProperties n = ∅ -> tree h p lo hi.
Proof.
  intros Hn Hp Hi Hpr.
  assert (Hc : forall e c, child n e = Some c -> False).
  { intros [k|] c; simpl; rewrite ?Hi, ?Hpr, ?lookup_empty; discriminate. }
  apply (tree_node h p lo hi n (fun _ => (0, 0)%nat)); [exact Hn | exact Hp | ..].
  - intros e c H. destruct (Hc e c H).
  - intros e c H. destruct (Hc e c H).
  - intros e1 e2 c1 c2 _ H. destruct (Hc e1 c1 H).
Qed.

(** Rewriting the root, its pointers kept, keeps the tree. *)
Lemma tree_retag h p lo hi n n' :
  tree h p lo hi -> h !! p = Some n ->
  nItems n' = nItems n -> nProperties n' = nProperties n ->
  tree (<[p := n']> h) p lo hi.
Proof.
  intros [p0 lo0 hi0 n0 iv Hn0 Hp Hiv Ht Hd] Hn Hi Hpr.
  assert (n0 = n) by congruence. subst n0.
  assert (Hc : forall e, child n' e = child n e).
  { intros [k|]; simpl; congruence. }
  apply (tree_node _ p0 lo0 hi0 n' iv); [| exact Hp | ..].
  - apply list_lookup_insert_eq. now apply lookup_lt_Some in Hn.
  - intros e c H. rewrite Hc in H. eauto.
  - intros e c H. rewrite Hc in H. apply (tree_frame h); [eauto|].
    intros x m Hx Hm. rewrite list_lookup_insert_ne; [exact Hm|].
    destruct (Hiv e c H). lia.
  - intros e1 e2 c1 c2 Hne H1 H2. rewrite Hc in H1, H2. eauto.
Qed.

Lemma tree_range h p lo hi : tree h p lo hi -> (lo <= p < hi)%nat.
Proof. now intros [? ? ? ? ? _ Hp _ _ _]. Qed.

(** What a walk in a tree reaches lies at or above its start, in the range
    of the tree. *)
Lemma tree_bounds h p lo hi :
  tree h p lo hi ->
  forall path q, walk h p path q -> (p <= q < hi)%nat.
Proof.
  induction 1 as [p lo hi n iv Hn Hp Hiv Ht IH Hd]; intros path q Hw.
  inversion Hw as [|? n' e c path' ? Hn' Hc Hw']; subst; [lia|].
  assert (n' = n) by congruence. subst n'.
  destruct (Hiv e c Hc). specialize (IH e c Hc path' q Hw').
  pose proof (tree_range _ _ _ _ (Ht e c Hc)). lia.
Qed.

Lemma tree_child_bounds h c lo hi path q :
  tree h c lo hi -> walk h c path q -> (lo <= q < hi)%nat.
Proof.
  intros Ht Hw. pose proof (tree_range _ _ _ _ Ht).
  pose proof (tree_bounds _ _ _ _ Ht _ _ Hw). lia.
Qed.

(** In a tree, an address is reached along one path only. *)
Lemma tree_unique h p lo hi :
  tree h p lo hi ->
  forall path1 path2 q, walk h p path1 q -> walk h p path2 q -> path1 = path2.
Proof.
  induction 1 as [p lo hi n iv Hn Hp Hiv Ht IH Hd]; intros path1 path2 q Hw1 Hw2.
  inversion Hw1 as [|? n1 e1 c1 path1' ? Hn1 Hc1 Hw1']; subst;
    inversion Hw2 as [|? n2 e2 c2 path2' ? Hn2 Hc2 Hw2']; subst.
  - reflexivity.
  - assert (n2 = n) by congruence. subst n2.
    destruct (Hiv e2 c2 Hc2).
    pose proof (tree_child_bounds _ _ _ _ _ _ (Ht e2 c2 Hc2) Hw2'). lia.
  - assert (n1 = n) by congruence. subst n1.
    destruct (Hiv e1 c1 Hc1).
    pose proof (tree_child_bounds _ _ _ _ _ _ (Ht e1 c1 Hc1) Hw1'). lia.
  - assert (n1 = n) by congruence. assert (n2 = n) by congruence. subst n1 n2.
    destruct (decide (e1 = e2)) as [<-|Hne].
    + assert (c2 = c1) by congruence. subst c2.
      f_equal. exact (IH e1 c1 Hc1 _ _ _ Hw1' Hw2').
    + pose proof (tree_child_bounds _ _ _ _ _ _ (Ht e1 c1 Hc1) Hw1').
      pose proof (tree_child_bounds _ _ _ _ _ _ (Ht e2 c2 Hc2) Hw2').
      destruct (Hd e1 e2 c1 c2 Hne Hc1 Hc2); lia.
Qed.

End Trees.

(** ** The result of a call is a tree *)

Section TreeOfTheResult.

Variable Unmarshal : string -> any * option error.

Local Abbreviation GSM := (GenerateSchemaM Unmarshal).

Implicit Types (h : store) (p q a : ptr) (n m : Node) (lo hi : nat).

(** The tags rewrite the node at [p], and leave its pointers alone. *)
Lemma applyTagsM_frame (tag : StructTag) p h n :
  h !! p = Some n ->
  exists n', snd (applyTagsM Unmarshal tag p h) = <[p := n']> h /\
             nItems n' = nItems n /\ nProperties n' = nProperties n.
Proof.
  intros Hn.
  pose proof (applyTagsM_refines Unmarshal tag p h n (scalarsOf n) Hn eq_refl) as H.
  destruct (applyTagsM Unmarshal tag p h) as [[e|] h'],
           (applyTags Unmarshal tag (scalarsOf n)) as [s'|e']; try contradiction; simpl.
  - destruct H as [_ [s' (n' & -> & _ & Hi & Hp & _)]]. eauto.
  - destruct H as (n' & -> & _ & Hi & Hp & _). eauto.
Qed.

Lemma GenerateSchemaM_keeps (t : Typ) h : keeps 0%nat h (snd (GSM t h)).
Proof. exact (proj1 (GenerateSchemaM_refines Unmarshal t h)). Qed.

(** An early return of the loop carries no pointer. *)
Lemma fieldsLoopM_inr_None (gen : Typ -> store -> (option ptr * option error) * store)
    (fs : list (StructField Typ)) : forall pm r h o e h',
  fieldsLoopM Unmarshal gen fs pm r h = (inr (o, e), h') -> o = None.
Proof.
  induction fs as [|f fs IH]; intros pm r h o e h'; simpl; [discriminate|].
  destruct (gen (Type_ f) h) as [[[s|] [err|]] h1]; try (intros [= <- _ _]; reflexivity).
  destruct (applyTagsM Unmarshal (Tag f) s h1) as [[err|] h2];
    [intros [= <- _ _]; reflexivity | apply IH].
Qed.

(** The loop keeps the entries of the pointer map apart. *)
Lemma fieldsLoopM_tree (fs : list (StructField Typ)) :
  Forall (fun f => forall h p h',
            GSM (Type_ f) h = ((Some p, None), h') ->
            tree h' p (length h) (length h')) fs ->
  forall a h pm r iv pm' r' h',
    (a < length h)%nat ->
    entriesApart a h pm iv ->
    fieldsLoopM Unmarshal GSM fs pm r h = (inl (pm', r'), h') ->
    keeps 0%nat h h' /\ exists iv', entriesApart a h' pm' iv'.
Proof.
  induction 1 as [|f fs Hf _ IH]; intros a h pm r iv pm' r' h' Ha Hinv.
  - simpl. intros [= <- _ <-]. split; [apply keeps_refl | eauto].
  - simpl.
    pose proof (GenerateSchemaM_keeps (Type_ f) h) as Hk1.
    destruct (GSM (Type_ f) h) as [[[s|] [err|]] h1] eqn:Hg; try discriminate.
    simpl in Hk1. specialize (Hf h s h1 Hg).
    pose proof (tree_range _ _ _ _ Hf) as Hs.
    destruct (lookup_lt_is_Some_2 h1 s ltac:(lia)) as [n Hn].
    destruct (applyTagsM_frame (Tag f) s h1 n Hn) as (n' & Hh2 & Hi & Hp).
    destruct (applyTagsM Unmarshal (Tag f) s h1) as [[err|] h2]; [discriminate|].
    simpl in Hh2. subst h2.
    set (h2 := <[s := n']> h1).
    assert (Hl2 : length h2 = length h1) by apply length_insert.
    assert (Hk2 : keeps 0%nat h h2) by (apply keeps_insert_fresh; [exact Hk1 | lia]).
    pose proof (keeps_length _ _ Hk1) as Hl1.
    assert (Ht2 : tree h2 s (length h) (length h1)) by (eapply tree_retag; eauto).
    intros Hloop.
    destruct (IH a h2 (<[fieldName f := s]> pm)
                (if optional f then r else (r ++ [fieldName f])%list)
                (fun k => if decide (k = fieldName f) then (length h, length h1) else iv k)
                pm' r' h' ltac:(lia)) as [Hk3 Hiv']; [|exact Hloop|].
    + destruct Hinv as [Hin Hdis]. split.
      * intros k c Hk. destruct (decide (k = fieldName f)) as [->|Hne]; simpl.
        -- rewrite lookup_insert_eq in Hk. injection Hk as <-.
           split; [lia|]. split; [lia | exact Ht2].
        -- rewrite lookup_insert_ne in Hk by auto.
           destruct (Hin k c Hk) as (Hlo & Hhi & Ht).
           split; [exact Hlo|]. split; [lia|].
           apply (tree_frame h); [exact Ht|].
           intros x m _ Hm. apply Hk2; [lia | exact Hm].
      * intros k1 k2 c1 c2 Hne H1 H2.
        destruct (decide (k1 = fieldName f)) as [->|Hn1],
                 (decide (k2 = fieldName f)) as [->|Hn2]; simpl.
        -- contradiction.
        -- rewrite lookup_insert_ne in H2 by auto.
           destruct (Hin k2 c2 H2) as (_ & Hhi & _). right. exact Hhi.
        -- rewrite lookup_insert_ne in H1 by auto.
           destruct (Hin k1 c1 H1) as (_ & Hhi & _). left. exact Hhi.
        -- rewrite lookup_insert_ne in H1, H2 by auto. eauto.
    + split; [eapply keeps_trans; eauto | exact Hiv'].
Qed.

(** The node of a struct after the loop, with its properties and its
    required list assigned. *)
Lemma struct_node_assigned a h (pm : gmap string ptr) (r : list string) :
  h !! a = Some (nsetType "object" emptyNode) ->
  let h3 := if (0 <? Z.of_nat (size pm))%Z
            then update a (nsetProperties pm) h else h in
  let h4 := if (0 <? Z.of_nat (length r))%Z
            then update a (nsetRequired r) h3 else h3 in
  exists n4, h4 !! a = Some n4 /\ nItems n4 = None /\ nProperties n4 = pm /\
    length h4 = length h /\
    forall x m, x <> a -> h !! x = Some m -> h4 !! x = Some m.
Proof.
  intros Hn h3 h4.
  assert (H3 : exists n3, h3 !! a = Some n3 /\ nItems n3 = None /\ nProperties n3 = pm /\
             length h3 = length h /\
             forall x m, x <> a -> h !! x = Some m -> h3 !! x = Some m).
  { subst h3. destruct (0 <? Z.of_nat (size pm))%Z eqn:Hc.
    - exists (nsetProperties pm (nsetType "object" emptyNode)).
      split; [now apply update_lookup|]. split; [reflexivity|]. split; [reflexivity|].
      split; [apply update_length|].
      intros x m Hx Hm. unfold update. now rewrite list_lookup_alter_ne by auto.
    - exists (nsetType "object" emptyNode). split; [exact Hn|]. split; [reflexivity|].
      apply Z.ltb_ge in Hc.
      assert (Hpm : pm = ∅) by (apply map_size_empty_iff; lia).
      rewrite Hpm. auto. }
  destruct H3 as (n3 & Hn3 & Hi3 & Hp3 & Hl3 & Hf3). clearbody h3.
  subst h4. destruct (0 <? Z.of_nat (length r))%Z.
  - exists (nsetRequired r n3). split; [now apply update_lookup|].
    split; [exact Hi3|]. split; [exact Hp3|].
    split; [now rewrite update_length|].
    intros x m Hx Hm. unfold update. rewrite list_lookup_alter_ne by auto. auto.
  - exists n3. auto.
Qed.

(** The result of a call is a tree that lies in the addresses the call
    allocated. *)
Lemma GenerateSchemaM_tree (t : Typ) : forall h p h',
  GSM t h = ((Some p, None), h') -> tree h' p (length h) (length h').
Proof.
  induction t as [k str|fs IH|key elem _ _|elem IH|len elem IH|elem IH]
    using Typ_fields_ind; intros h p h' H.
  - simpl in H.
    destruct (leafNode k str) as [[n|] oe] eqn:Hleaf; [|discriminate H].
    simpl in H. injection H as <- <-.
    apply (tree_leaf _ _ _ _ n).
    + now rewrite list_lookup_middle.
    + rewrite !length_app. simpl. lia.
    + destruct k; simpl in Hleaf; try discriminate Hleaf; injection Hleaf as <- _; reflexivity.
    + destruct k; simpl in Hleaf; try discriminate Hleaf; injection Hleaf as <- _; reflexivity.
  - simpl in H.
    set (a := length h) in *.
    set (h1 := update a (nsetType "object") (h ++ [emptyNode])%list) in *.
    assert (Ha1 : h1 !! a = Some (nsetType "object" emptyNode)).
    { subst h1 a. apply update_lookup. now rewrite list_lookup_middle. }
    assert (Hl1 : length h1 = S a).
    { subst h1 a. rewrite update_length, length_app. simpl. lia. }
    clearbody h1.
    destruct (fieldsLoopM Unmarshal GSM fs ∅ [] h1) as [[[pm r]|[o e]] h2] eqn:Hloop.
    + injection H as <- <-.
      destruct (fieldsLoopM_tree fs IH a h1 ∅ [] (fun _ => (0, 0)%nat) pm r h2)
        as [Hk2 [iv [Hin Hdis]]]; [lia | | exact Hloop |].
      { split; [intros k c Hk | intros k1 k2 c1 c2 _ Hk];
          rewrite lookup_empty in Hk; discriminate Hk. }
      assert (Ha2 : h2 !! a = Some (nsetType "object" emptyNode))
        by (apply Hk2; [lia | exact Ha1]).
      pose proof (keeps_length _ _ Hk2) as Hl2.
      destruct (struct_node_assigned a h2 pm r Ha2) as (n4 & Hn4 & Hi4 & Hp4 & Hl4 & Hf4).
      simpl in Hn4, Hl4, Hf4.
      apply (tree_node _ a _ _ n4
               (fun e => match e with Some k => iv k | None => (0, 0)%nat end));
        [exact Hn4 | lia | | | ].
      * intros [k|] c; simpl; rewrite ?Hi4, ?Hp4; [|discriminate].
        intros Hk. destruct (Hin k c Hk) as (Hlo & Hhi & _). lia.
      * intros [k|] c; simpl; rewrite ?Hi4, ?Hp4; [|discriminate].
        intros Hk. destruct (Hin k c Hk) as (Hlo & Hhi & Ht).
        apply (tree_frame h2); [exact Ht|].
        intros x m Hx. apply Hf4. lia.
      * intros [k1|] [k2|] c1 c2 Hne; simpl; rewrite ?Hi4, ?Hp4; try discriminate.
        intros H1 H2. apply (Hdis k1 k2 c1 c2); [congruence | exact H1 | exact H2].
    + injection H as -> _ _. apply fieldsLoopM_inr_None in Hloop. discriminate Hloop.
  - simpl in H. injection H as <- <-.
    apply (tree_leaf _ _ _ _ emptyNode); try reflexivity.
    + now rewrite list_lookup_middle.
    + rewrite length_app. simpl. lia.
  - simpl in H.
    set (a := length h) in *.
    set (h1 := update a (nsetType "array") (h ++ [emptyNode])%list) in *.
    assert (Ha1 : h1 !! a = Some (nsetType "array" emptyNode)).
    { subst h1 a. apply update_lookup. now rewrite list_lookup_middle. }
    assert (Hl1 : length h1 = S a).
    { subst h1 a. rewrite update_length, length_app. simpl. lia. }
    clearbody h1.
    pose proof (GenerateSchemaM_keeps elem h1) as Hk2.
    destruct (GSM elem h1) as [[oc [err|]] h2] eqn:Hg; [discriminate H|].
    simpl in Hk2. injection H as <- <-.
    assert (Ha2 : h2 !! a = Some (nsetType "array" emptyNode))
      by (apply Hk2; [lia | exact Ha1]).
    pose proof (keeps_length _ _ Hk2) as Hl2.
    destruct oc as [c|].
    + specialize (IH h1 c h2 Hg).
      apply (tree_node _ a _ _ (nsetItems (Some c) (nsetType "array" emptyNode))
               (fun _ => (length h1, length h2)));
        [now apply update_lookup | rewrite update_length; lia | | | ].
      * intros [k|] c'; simpl; [rewrite lookup_empty; discriminate|].
        intros _. rewrite update_length. lia.
      * intros [k|] c'; simpl; [rewrite lookup_empty; discriminate|].
        intros [= <-]. apply (tree_frame h2); [exact IH|].
        intros x m Hx Hm. unfold update. rewrite list_lookup_alter_ne by lia. exact Hm.
      * intros [k1|] [k2|] c1 c2 Hne; simpl; rewrite ?lookup_empty;
          try discriminate. contradiction.
    + apply (tree_leaf _ _ _ _ (nsetItems None (nsetType "array" emptyNode)));
        [now apply update_lookup | rewrite update_length; lia | reflexivity | reflexivity].
  - simpl in H.
    set (a := length h) in *.
    set (h1 := update a (nsetType "array") (h ++ [emptyNode])%list) in *.
    assert (Ha1 : h1 !! a = Some (nsetType "array" emptyNode)).
    { subst h1 a. apply update_lookup. now rewrite list_lookup_middle. }
    assert (Hl1 : length h1 = S a).
    { subst h1 a. rewrite update_length, length_app. simpl. lia. }
    clearbody h1.
    pose proof (GenerateSchemaM_keeps elem h1) as Hk2.
    destruct (GSM elem h1) as [[oc [err|]] h2] eqn:Hg; [discriminate H|].
    simpl in Hk2. injection H as <- <-.
    assert (Ha2 : h2 !! a = Some (nsetType "array" emptyNode))
      by (apply Hk2; [lia | exact Ha1]).
    pose proof (keeps_length _ _ Hk2) as Hl2.
    destruct oc as [c|].
    + specialize (IH h1 c h2 Hg).
      apply (tree_node _ a _ _ (nsetItems (Some c) (nsetType "array" emptyNode))
               (fun _ => (length h1, length h2)));
        [now apply update_lookup | rewrite update_length; lia | | | ].
      * intros [k|] c'; simpl; [rewrite lookup_empty; discriminate|].
        intros _. rewrite update_length. lia.
      * intros [k|] c'; simpl; [rewrite lookup_empty; discriminate|].
        intros [= <-]. apply (tree_frame h2); [exact IH|].
        intros x m Hx Hm. unfold update. rewrite list_lookup_alter_ne by lia. exact Hm.
      * intros [k1|] [k2|] c1 c2 Hne; simpl; rewrite ?lookup_empty;
          try discriminate. contradiction.
    + apply (tree_leaf _ _ _ _ (nsetItems None (nsetType "array" emptyNode)));
        [now apply update_lookup | rewrite update_length; lia | reflexivity | reflexivity].
  - simpl in H. specialize (IH _ _ _ H).
    eapply tree_widen; [exact IH | | lia].
    rewrite length_app. simpl. lia.
Qed.

End TreeOfTheResult.

(** ** The identifiers of the fields *)


Section Names.

Variable Unmarshal : string -> any * option error.


End Names.

(** ** Further properties of [GenerateSchema] *)

(** X1. A struct builds exactly when each of its fields does: the type of the
    field builds, its [minimum] and [maximum] are texts [Atoi] accepts, and
    its [example], if it has one, sits on a node of kind string or is a text
    the decoder accepts. The description and enum tags never fail a build. *)
Theorem struct_builds_iff_its_fields_build
    (Unmarshal : string -> any * option error) (fs : list (StructField Typ)) :
  (exists sch, GenerateSchema Unmarshal (StructOf fs) = (Some sch, None)) <->
  Forall (fieldBuilds Unmarshal) fs.
Proof.
  rewrite GenerateSchema_struct_builds.
  split; intros H; (eapply Forall_impl; [exact H|]);
    intros f Hf; now apply fieldNode_builds.
Qed.

(** X2. Every error [GenerateSchema] returns has one of three sources: the
    [default] arm, on a type of a kind without a rule that the walk reaches;
    [Atoi], on the [minimum] or [maximum] text of a field the walk reaches;
    or the decoder, on the [example] text of such a field whose node is not
    of kind string. The error is the one that source produced. *)
Theorem errors_have_three_sources
    (Unmarshal : string -> any * option error) (t : Typ) (e : error) :
  GenerateSchema Unmarshal t = (None, Some e) ->
  (exists k str, unsupported k = true /\ nestedIn (Leaf k str) t /\
     e = Errorf ("unsupported type " ++ Kind_String k ++ " from " ++ str)) \/
  (exists f d v, fieldIn f t /\
     (Lookup (Tag f) "minimum" = Some d \/ Lookup (Tag f) "maximum" = Some d) /\
     strconv.Atoi d = (v, Some e)) \/
  (exists f x v s, fieldIn f t /\ Lookup (Tag f) "example" = Some x /\
     GenerateSchema Unmarshal (Type_ f) = (Some s, None) /\ Type' s <> "string" /\
     Unmarshal x = (v, Some e)).
Proof.
  revert e.
  induction t as [k str|fs IH|key elem _ _|elem IH|len elem IH|elem IH]
    using Typ_fields_ind; intros e H.
  - left. exists k, str. apply leafSchema_error in H. destruct H as [Hk ->].
    split; [exact Hk|]. split; [apply nested_here | reflexivity].
  - rewrite GenerateSchema_struct in H.
    destruct (fieldsLoop Unmarshal (GenerateSchema Unmarshal) fs ∅ [])
      as [[p r]|x] eqn:Hl; [discriminate H|]. subst x.
    apply fieldsLoop_failure in Hl. destruct Hl as (f & Hf & Hn).
    unfold fieldNode in Hn.
    destruct (GenerateSchema_node_or_error Unmarshal (Type_ f)) as [[s Hg]|[e0 Hg]];
      rewrite Hg in Hn.
    + destruct (applyTags Unmarshal (Tag f) s) as [c|e1] eqn:Ha; [discriminate Hn|].
      injection Hn as ->.
      destruct (applyTags_error _ _ _ _ Ha) as [(d & v & Hd & Hv)|(x & v & Hx & Ht & Hv)].
      * right. left. exists f, d, v. split; [now apply fieldIn_field | auto].
      * right. right. exists f, x, v, s. split; [now apply fieldIn_field | auto].
    + injection Hn as ->. rewrite Forall_forall in IH.
      destruct (IH f (proj2 (list_elem_of_In _ _) Hf) e Hg)
        as [(k & str & Hk & Hn & He)|[(g & d & v & Hg' & Hd)|(g & x & v & s & Hg' & Hx)]].
      * left. exists k, str. split; [exact Hk|]. split; [|exact He].
        eapply nested_field; eauto.
      * right. left. exists g, d, v. split; [eapply fieldIn_below; eauto | exact Hd].
      * right. right. exists g, x, v, s. split; [eapply fieldIn_below; eauto | exact Hx].
  - discriminate H.
  - simpl in H.
    destruct (GenerateSchema_node_or_error Unmarshal elem) as [[s Hg]|[e0 Hg]];
      rewrite Hg in H; [discriminate H|].
    injection H as <-.
    destruct (IH e0 Hg)
      as [(k & str & Hk & Hn & He)|[(g & d & v & Hgi & Hd)|(g & x & v & s & Hgi & Hx)]].
    + left. exists k, str. split; [exact Hk|]. split; [now apply nested_slice | exact He].
    + right. left. exists g, d, v. split; [now apply fieldIn_slice | exact Hd].
    + right. right. exists g, x, v, s. split; [now apply fieldIn_slice | exact Hx].
  - simpl in H.
    destruct (GenerateSchema_node_or_error Unmarshal elem) as [[s Hg]|[e0 Hg]];
      rewrite Hg in H; [discriminate H|].
    injection H as <-.
    destruct (IH e0 Hg)
      as [(k & str & Hk & Hn & He)|[(g & d & v & Hgi & Hd)|(g & x & v & s & Hgi & Hx)]].
    + left. exists k, str. split; [exact Hk|]. split; [now apply nested_array | exact He].
    + right. left. exists g, d, v. split; [now apply fieldIn_array | exact Hd].
    + right. right. exists g, x, v, s. split; [now apply fieldIn_array | exact Hx].
  - simpl in H.
    destruct (IH e H)
      as [(k & str & Hk & Hn & He)|[(g & d & v & Hgi & Hd)|(g & x & v & s & Hgi & Hx)]].
    + left. exists k, str. split; [exact Hk|]. split; [now apply nested_ptr | exact He].
    + right. left. exists g, d, v. split; [now apply fieldIn_ptr | exact Hd].
    + right. right. exists g, x, v, s. split; [now apply fieldIn_ptr | exact Hx].
Qed.

(** X2, on [struct { ID int `json:"id"`; Pipes []chan int `json:"pipes"` }],
    whose build fails with the error of the channel. *)
Lemma errors_have_three_sources_witness :
  GenerateSchema exampleUnmarshal Examples.withChannel
    = (None, Some (Errorf "unsupported type chan from chan int")) /\
  ((exists k str, unsupported k = true /\ nestedIn (Leaf k str) Examples.withChannel /\
      Errorf "unsupported type chan from chan int"
      = Errorf ("unsupported type " ++ Kind_String k ++ " from " ++ str)) \/
   (exists f d v, fieldIn f Examples.withChannel /\
      (Lookup (Tag f) "minimum" = Some d \/ Lookup (Tag f) "maximum" = Some d) /\
      strconv.Atoi d = (v, Some (Errorf "unsupported type chan from chan int"))) \/
   (exists f x v s, fieldIn f Examples.withChannel /\ Lookup (Tag f) "example" = Some x /\
      GenerateSchema exampleUnmarshal (Type_ f) = (Some s, None) /\ Type' s <> "string" /\
      exampleUnmarshal x = (v, Some (Errorf "unsupported type chan from chan int")))).
Proof.
  split; [reflexivity|].
  exact (errors_have_three_sources exampleUnmarshal Examples.withChannel _ eq_refl).
Defined.

(** X3. In every tree [GenerateSchema] returns, at every depth, the attributes
    of a node agree with its kind: the kind is one of the six names or
    empty; a node has items exactly when it is an array; only an object has
    properties or a required list; and every required name is a key of the
    properties of the same node. *)
Theorem every_node_agrees_with_its_kind
    (Unmarshal : string -> any * option error) (t : Typ) (sch n : Schema) :
  GenerateSchema Unmarshal t = (Some sch, None) ->
  inTree n sch ->
  wellKinded n.
Proof.
  apply (GenerateSchema_everywhere Unmarshal wellKinded).
  - intros t' s H. exact (proj1 (root_shape Unmarshal t' s H)).
  - intros tag s s'. apply applyTags_wellKinded.
Qed.

(** X3, on the [tags] entry of [Samples.inventory], an array with a description
    and a maximum. *)
Lemma every_node_agrees_with_its_kind_witness :
  exists n,
    Properties Samples.inventoryNode !! "tags" = Some n /\
    Type' n = "array" /\ wellKinded n.
Proof.
  eexists. split; [reflexivity|]. split; [reflexivity|].
  apply (every_node_agrees_with_its_kind exampleUnmarshal
           Samples.inventory Samples.inventoryNode).
  - reflexivity.
  - eapply (in_property _ _ "tags"); [reflexivity | apply in_here].
Defined.

(** X4. [GenerateSchema] never sets [Format] or [Default]: they are at their
    zero value at every node of every tree it returns. *)
Theorem format_and_default_are_never_set
    (Unmarshal : string -> any * option error) (t : Typ) (sch n : Schema) :
  GenerateSchema Unmarshal t = (Some sch, None) ->
  inTree n sch ->
  Format n = "" /\ Default n = ANil.
Proof.
  apply (GenerateSchema_everywhere Unmarshal
           (fun n => Format n = "" /\ Default n = ANil)).
  - intros t' s H. exact (proj2 (proj2 (root_shape Unmarshal t' s H))).
  - intros tag s s' Hs Ha. apply applyTags_Format in Ha.
    destruct Ha as [-> ->]. exact Hs.
Qed.

(** X4, on the node [name] inside the entry [owner] of [Samples.inventory]. *)
Lemma format_and_default_are_never_set_witness :
  exists owner n,
    Properties Samples.inventoryNode !! "owner" = Some owner /\
    Properties owner !! "name" = Some n /\
    Format n = "" /\ Default n = ANil.
Proof.
  eexists. eexists. split; [reflexivity|]. split; [reflexivity|].
  apply (format_and_default_are_never_set exampleUnmarshal
           Samples.inventory Samples.inventoryNode).
  - reflexivity.
  - eapply (in_property _ _ "owner"); [reflexivity|].
    eapply (in_property _ _ "name"); [reflexivity | apply in_here].
Defined.

(** X5. The tags of a field refine the node of that field and no other: the
    root of every tree [GenerateSchema] returns and, at every depth, the
    items of every array carry no description, no enum, no example and no
    maximum, and no minimum but the 0 of an unsigned kind. *)
Theorem roots_and_items_carry_no_annotation
    (Unmarshal : string -> any * option error) (t : Typ) (sch : Schema) :
  GenerateSchema Unmarshal t = (Some sch, None) ->
  untagged sch /\
  forall n c, inTree n sch -> Items n = Some c -> untagged c.
Proof.
  intros H. split; [exact (proj1 (proj2 (root_shape Unmarshal t sch H)))|].
  intros n c Hin. revert c.
  apply (GenerateSchema_everywhere Unmarshal
           (fun n => forall c, Items n = Some c -> untagged c)) with (t := t) (sch := sch);
    [| |exact H|exact Hin].
  - clear. intros t.
    induction t as [k str|fs _|key elem _ _|elem _|len elem _|elem IH]
      using Typ_fields_ind; intros s H c Hc.
    + destruct k; simpl in H; try discriminate H; injection H as <-; discriminate Hc.
    + apply GenerateSchema_struct_ok in H. destruct H as (p & r & _ & _ & _ & _ & Hi).
      congruence.
    + simpl in H. injection H as <-. discriminate Hc.
    + apply GenerateSchema_slice in H. destruct H as (c0 & Hc0 & ->).
      simpl in Hc. injection Hc as <-.
      exact (proj1 (proj2 (root_shape Unmarshal elem c0 Hc0))).
    + change (GenerateSchema Unmarshal (ArrayOf len elem))
        with (GenerateSchema Unmarshal (SliceOf elem)) in H.
      apply GenerateSchema_slice in H. destruct H as (c0 & Hc0 & ->).
      simpl in Hc. injection Hc as <-.
      exact (proj1 (proj2 (root_shape Unmarshal elem c0 Hc0))).
    + eapply IH; eauto.
  - intros tag s s' Hs Ha c Hc. apply applyTags_Type in Ha.
    destruct Ha as (_ & Hi & _). rewrite Hi in Hc. now apply Hs.
Qed.

(** X5, on [Samples.inventory]: the description and the maximum of the field
    [Tags] are on the array, and its items are the bare node of [uint]. *)
Lemma roots_and_items_carry_no_annotation_witness :
  exists n c,
    Properties Samples.inventoryNode !! "tags" = Some n /\
    Description n = "labels" /\ Maximum n = Some 3 /\
    Items n = Some c /\ untagged c.
Proof.
  eexists. eexists. split; [reflexivity|]. split; [reflexivity|].
  split; [reflexivity|]. split; [reflexivity|].
  eapply (proj2 (roots_and_items_carry_no_annotation exampleUnmarshal
                   Samples.inventory Samples.inventoryNode eq_refl)).
  - eapply (in_property _ _ "tags"); [reflexivity | apply in_here].
  - reflexivity.
Defined.

(** X6. Every minimum and maximum of every tree [GenerateSchema] returns is a
    value of Go's [int]: [Atoi] rejects a text whose value does not fit, and
    the build fails on it. *)
Theorem bounds_are_int_values
    (Unmarshal : string -> any * option error) (t : Typ) (sch n : Schema) :
  GenerateSchema Unmarshal t = (Some sch, None) ->
  inTree n sch ->
  inIntRange (Minimum n) /\ inIntRange (Maximum n).
Proof.
  apply (GenerateSchema_everywhere Unmarshal
           (fun n => inIntRange (Minimum n) /\ inIntRange (Maximum n))).
  - intros t' s H. destruct (root_shape Unmarshal t' s H) as (_ & Hu & _).
    destruct Hu as (_ & _ & _ & -> & [-> | ->]); simpl;
      unfold strconv.intSize; lia.
  - intros tag s s' [Hmin Hmax] Ha. apply applyTags_bounds in Ha.
    destruct Ha as (-> & -> & Hbmin & Hbmax). unfold boundOf. split.
    + destruct (Lookup tag "minimum") as [d|]; [|exact Hmin].
      specialize (Hbmin d eq_refl).
      destruct (strconv.Atoi d) as [v [e|]] eqn:Hd; [discriminate Hbmin|].
      exact (Atoi_range d v Hd).
    + destruct (Lookup tag "maximum") as [d|]; [|exact Hmax].
      specialize (Hbmax d eq_refl).
      destruct (strconv.Atoi d) as [v [e|]] eqn:Hd; [discriminate Hbmax|].
      exact (Atoi_range d v Hd).
Qed.

(** X6, on the entry [count] of
    [struct { Count uint `json:"count" minimum:"5" maximum:"10"` }]. *)
Lemma bounds_are_int_values_witness :
  exists sch n,
    GenerateSchema exampleUnmarshal Examples.bounded = (Some sch, None) /\
    Properties sch !! "count" = Some n /\
    Minimum n = Some 5 /\ Maximum n = Some 10 /\
    inIntRange (Minimum n) /\ inIntRange (Maximum n).
Proof.
  eexists. eexists. split; [reflexivity|]. split; [reflexivity|].
  split; [reflexivity|]. split; [reflexivity|].
  eapply (bounds_are_int_values exampleUnmarshal Examples.bounded).
  - reflexivity.
  - eapply (in_property _ _ "count"); [reflexivity | apply in_here].
Defined.

(** X7. A slice and an array build alike, whatever the length of the array:
    the build succeeds exactly when the element type builds, to the array
    node whose items are the node of the element and that has nothing else
    set; and it fails exactly when the element type fails, with the same
    error. *)
Theorem slice_and_array_nodes
    (Unmarshal : string -> any * option error) (len : Z) (elem : Typ) :
  GenerateSchema Unmarshal (ArrayOf len elem) = GenerateSchema Unmarshal (SliceOf elem) /\
  (forall sch,
     GenerateSchema Unmarshal (SliceOf elem) = (Some sch, None) <->
     exists s, GenerateSchema Unmarshal elem = (Some s, None) /\
               sch = setItems (Some s) (setType "array" emptySchema)) /\
  (forall e,
     GenerateSchema Unmarshal (SliceOf elem) = (None, Some e) <->
     GenerateSchema Unmarshal elem = (None, Some e)).
Proof.
  split; [reflexivity|]. split; [apply GenerateSchema_slice|].
  intros e. simpl.
  destruct (GenerateSchema_node_or_error Unmarshal elem) as [[s ->]|[e0 ->]];
    split; intros H; try discriminate H; injection H as <-; reflexivity.
Qed.

(** X8. In every successful build of a struct, the entry of a field (one that no
    later field shadows) has the text of its [description] tag, verbatim, as
    its description, the empty text when there is no such tag; and as its
    enum the comma-separated parts of its [enum] tag, each one a string
    whatever the type of the field, so at least one when the tag is there;
    no enum when there is no such tag. *)
Theorem description_and_enum_annotations
    (Unmarshal : string -> any * option error)
    (pre post : list (StructField Typ)) (f : StructField Typ) (sch : Schema) :
  GenerateSchema Unmarshal (StructOf (pre ++ f :: post)) = (Some sch, None) ->
  Forall (fun g => fieldName g <> fieldName f) post ->
  exists child,
    Properties sch !! fieldName f = Some child /\
    Description child = Get (Tag f) "description" /\
    Enum child = match Lookup (Tag f) "enum" with
                 | Some e => map AString (strings.Split e ","%char)
                 | None => []
                 end /\
    (is_Some (Lookup (Tag f) "enum") -> Enum child <> []).
Proof.
  intros H Hpost. apply GenerateSchema_struct_ok in H.
  destruct H as (p & r & Hl & _ & -> & _).
  destruct (fieldsLoop_lookup _ _ _ _ _ _ _ _ _ Hl Hpost) as (child & Hn & Hc).
  exists child. split; [exact Hc|].
  apply fieldNode_inl in Hn. destruct Hn as (s & Hs & Ha).
  destruct (root_shape Unmarshal _ _ Hs) as (_ & (Hd & He & _) & _).
  destruct (applyTags_description _ _ _ _ Ha) as [-> ->].
  unfold Get. rewrite Hd, He.
  split; [reflexivity|]. split.
  - destruct (Lookup (Tag f) "enum"); [apply enumOf_map | reflexivity].
  - intros [e ->]. rewrite enumOf_map.
    destruct (Split_cons e ","%char) as (h & t & ->). discriminate.
Qed.

(** X8, on [struct { Level int `json:"level" description:"how loud" enum:"1,2,3"` }]:
    the enum of the integer field holds three strings. *)
Lemma description_and_enum_annotations_witness :
  exists sch child,
    GenerateSchema exampleUnmarshal Samples.volume = (Some sch, None) /\
    Properties sch !! "level" = Some child /\
    Type' child = "integer" /\
    Description child = "how loud" /\
    Enum child = [AString "1"; AString "2"; AString "3"].
Proof.
  eexists.
  destruct (description_and_enum_annotations exampleUnmarshal [] []
              (mkField "Level" Examples.intT
                 [("json", "level"); ("description", "how loud"); ("enum", "1,2,3")])
              _ eq_refl (List.Forall_nil _)) as (child & Hc & Hd & He & _).
  exists child. split; [reflexivity|]. split; [exact Hc|].
  split; [|split; [exact Hd | exact He]].
  vm_compute in Hc. injection Hc as <-. reflexivity.
Defined.



(** X10. The decoder is consulted for example texts only: two decoders that
    agree on the [example] texts of the fields the walk reaches give the
    same result. So the result of a descriptor without example tags does not
    depend on the decoder. *)
Theorem decoder_is_consulted_for_examples_only
    (Unmarshal1 Unmarshal2 : string -> any * option error) (t : Typ) :
  (forall f x, fieldIn f t -> Lookup (Tag f) "example" = Some x ->
               Unmarshal1 x = Unmarshal2 x) ->
  GenerateSchema Unmarshal1 t = GenerateSchema Unmarshal2 t.
Proof.
  induction t as [k str|fs IH|key elem _ _|elem IH|len elem IH|elem IH]
    using Typ_fields_ind; intros H.
  - reflexivity.
  - rewrite !GenerateSchema_struct.
    rewrite (fieldsLoop_ext Unmarshal1 Unmarshal2
               (GenerateSchema Unmarshal1) (GenerateSchema Unmarshal2) fs);
      [reflexivity|].
    rewrite Forall_forall in IH. apply Forall_forall. intros f Hf.
    apply list_elem_of_In in Hf. split.
    + apply IH; [now apply list_elem_of_In|].
      intros g x Hg. apply H. eapply fieldIn_below; eauto.
    + intros x. apply H. now apply fieldIn_field.
  - reflexivity.
  - simpl. rewrite IH; [reflexivity|].
    intros g x Hg. apply H. now apply fieldIn_slice.
  - simpl. rewrite IH; [reflexivity|].
    intros g x Hg. apply H. now apply fieldIn_array.
  - simpl. apply IH. intros g x Hg. apply H. now apply fieldIn_ptr.
Qed.

(** [struct { name string; age int `json:"age,omitempty"` }] has no example
    tag. *)
Lemma person_has_no_example (f : StructField Typ) (x : string) :
  fieldIn f Examples.person -> Lookup (Tag f) "example" = Some x -> False.
Proof.
  intros Hf. apply fieldIn_inv in Hf. simpl in Hf.
  destruct Hf as [[<-|[<-|[]]]|(g & [<-|[<-|[]]] & Hg)];
    try discriminate; apply fieldIn_inv in Hg; destruct Hg.
Qed.

(** X10, on [struct { name string; age int `json:"age,omitempty"` }], with two
    decoders that agree on no text. *)
Lemma decoder_is_consulted_for_examples_only_witness :
  (forall x, exampleUnmarshal x <> Samples.failingUnmarshal x) /\
  GenerateSchema exampleUnmarshal Examples.person
  = GenerateSchema Samples.failingUnmarshal Examples.person.
Proof.
  split.
  - intros x. unfold exampleUnmarshal, Samples.failingUnmarshal.
    repeat match goal with |- context [String.eqb ?a ?b] => destruct (String.eqb a b) end;
      discriminate.
  - apply decoder_is_consulted_for_examples_only.
    intros f x Hf Hx. destruct (person_has_no_example f x Hf Hx).
Defined.

(** X11. The json tag of a field is read as a name and options: the parts between
    its commas, the first of them the name of the field in the schema.
    Joined by commas the parts give the tag back, and no part holds a comma.
    A tag without a comma is the name, whole, and the field is then not
    optional; so a field without json tag, or with an empty one, has the
    empty name and is required. *)
Theorem json_tag_is_name_and_options (f : StructField Typ) :
  jsonTags f = fieldName f :: tl (jsonTags f) /\
  String.concat "," (jsonTags f) = Get (Tag f) "json" /\
  Forall (fun part => ~ hasByte ","%char part) (jsonTags f) /\
  (~ hasByte ","%char (Get (Tag f) "json") ->
   fieldName f = Get (Tag f) "json" /\ optional f = false) /\
  (Lookup (Tag f) "json" = None -> fieldName f = "" /\ optional f = false).
Proof.
  assert (Hwhole : ~ hasByte ","%char (Get (Tag f) "json") ->
                   fieldName f = Get (Tag f) "json" /\ optional f = false).
  { intros H. unfold fieldName, optional, jsonTags.
    rewrite (Split_whole _ _ H). split; reflexivity. }
  split; [|split; [|split; [|split]]].
  - rewrite fieldName_hd. unfold jsonTags.
    destruct (Split_cons (Get (Tag f) "json") ","%char) as (h & t & ->). reflexivity.
  - apply Split_concat.
  - apply Split_parts.
  - exact Hwhole.
  - intros H. apply Lookup_Get_None in H.
    destruct Hwhole as [Hn Ho]; [rewrite H; intros []|].
    rewrite Hn, H. auto.
Qed.

(** X12. When several fields of a struct resolve to one name, the entry under
    that name is the node of the last of them: the node of its type, with
    the kind, the items, the properties and the required list that node has,
    refined by its tags. The fields before it leave nothing in the
    properties. *)
Theorem entry_is_the_node_of_the_last_field
    (Unmarshal : string -> any * option error)
    (pre post : list (StructField Typ)) (f : StructField Typ) (sch : Schema) :
  GenerateSchema Unmarshal (StructOf (pre ++ f :: post)) = (Some sch, None) ->
  Forall (fun g => fieldName g <> fieldName f) post ->
  exists s child,
    GenerateSchema Unmarshal (Type_ f) = (Some s, None) /\
    applyTags Unmarshal (Tag f) s = inl child /\
    Properties sch !! fieldName f = Some child /\
    Type' child = Type' s /\ Items child = Items s /\
    Properties child = Properties s /\ Required child = Required s.
Proof.
  intros H Hpost. apply GenerateSchema_struct_ok in H.
  destruct H as (p & r & Hl & _ & -> & _).
  destruct (fieldsLoop_lookup _ _ _ _ _ _ _ _ _ Hl Hpost) as (child & Hn & Hc).
  apply fieldNode_inl in Hn. destruct Hn as (s & Hs & Ha).
  exists s, child. split; [exact Hs|]. split; [exact Ha|]. split; [exact Hc|].
  exact (applyTags_Type _ _ _ _ Ha).
Qed.

(** X12, on [struct { A string `json:"x"`; B int `json:"x,omitempty"` }]: the
    entry [x] is the integer node of [B], and [x] is required, by [A]. *)
Lemma entry_is_the_node_of_the_last_field_witness :
  exists sch child,
    GenerateSchema exampleUnmarshal Samples.clash = (Some sch, None) /\
    Properties sch !! "x" = Some child /\
    Type' child = "integer" /\
    Required sch = ["x"].
Proof.
  eexists.
  destruct (entry_is_the_node_of_the_last_field exampleUnmarshal
              [mkField "A" Examples.stringT [("json", "x")]] []
              (mkField "B" Examples.intT [("json", "x,omitempty")])
              _ eq_refl (List.Forall_nil _))
    as (s & child & Hs & _ & Hc & Ht & _).
  exists child. split; [reflexivity|]. split; [exact Hc|].
  split; [|reflexivity].
  rewrite Ht. vm_compute in Hs. injection Hs as <-. reflexivity.
Defined.

(** X13. The node of a struct is an object without items. It has no properties
    exactly when the struct has no field, and as many as its fields have
    distinct names; it has no required list exactly when every field is
    marked [omitempty]. *)
Theorem object_node
    (Unmarshal : string -> any * option error)
    (fs : list (StructField Typ)) (sch : Schema) :
  GenerateSchema Unmarshal (StructOf fs) = (Some sch, None) ->
  Type' sch = "object" /\ Items sch = None /\
  (Properties sch = ∅ <-> fs = []) /\
  size (Properties sch) = length (remove_dups (map fieldName fs)) /\
  (Required sch = [] <-> Forall (fun f => optional f = true) fs).
Proof.
  intros H. apply GenerateSchema_struct_ok in H.
  destruct H as (p & r & Hl & Ht & -> & -> & Hi).
  pose proof (fieldsLoop_dom _ _ _ _ _ _ _ Hl) as Hd.
  pose proof (fieldsLoop_required _ _ _ _ _ _ _ Hl) as Hr. simpl in Hr.
  rewrite dom_empty_L, (left_id_L ∅ (∪)) in Hd.
  split; [exact Ht|]. split; [exact Hi|]. split; [|split].
  - split.
    + intros ->. rewrite dom_empty_L in Hd.
      destruct fs as [|f fs]; [reflexivity|]. simpl in Hd. set_solver.
    + intros ->. simpl in Hl. now injection Hl as <- _.
  - rewrite <- (size_dom (D := gset string)), Hd.
    rewrite <- (size_list_to_set (C := gset string) (remove_dups (map fieldName fs)))
      by apply NoDup_remove_dups.
    f_equal. apply set_eq. intros x.
    rewrite !elem_of_list_to_set, elem_of_remove_dups. reflexivity.
  - rewrite Hr. unfold requiredNames. split.
    + intros Hnil. apply map_eq_nil in Hnil.
      apply Forall_forall. intros f Hf. apply list_elem_of_In in Hf.
      destruct (optional f) eqn:Ho; [reflexivity|].
      assert (Hin : In f (List.filter (fun f => negb (optional f)) fs))
        by (apply filter_In; rewrite Ho; auto).
      rewrite Hnil in Hin. destruct Hin.
    + intros Hall. clear Hl Hd Hr.
      induction Hall as [|f fs' Hf _ IH]; [reflexivity|].
      simpl. rewrite Hf. exact IH.
Qed.

(** X13, on [struct { A string `json:"x"`; B int `json:"x,omitempty"` }]: two
    fields and one property. *)
Lemma object_node_witness :
  GenerateSchema exampleUnmarshal Samples.clash = (Some Samples.clashNode, None) /\
  Type' Samples.clashNode = "object" /\ size (Properties Samples.clashNode) = 1%nat.
Proof.
  split; [reflexivity|].
  destruct (object_node exampleUnmarshal
              [mkField "A" Examples.stringT [("json", "x")];
               mkField "B" Examples.intT [("json", "x,omitempty")]]
              Samples.clashNode eq_refl)
    as (Ht & _ & _ & Hs & _).
  split; [exact Ht|]. exact (eq_trans Hs eq_refl).
Defined.

(** X14. The fields of a struct can be reordered: a struct builds exactly
    when the struct with its fields in another order does (the error of a
    failing build may differ); the two required lists then hold the same
    names, each as many times; and, when the fields resolve to distinct
    names, the two nodes have the same properties. *)
Theorem fields_can_be_reordered
    (Unmarshal : string -> any * option error)
    (fs fs' : list (StructField Typ)) :
  Permutation fs fs' ->
  ((exists sch, GenerateSchema Unmarshal (StructOf fs) = (Some sch, None)) <->
   (exists sch', GenerateSchema Unmarshal (StructOf fs') = (Some sch', None))) /\
  (forall sch sch',
     GenerateSchema Unmarshal (StructOf fs) = (Some sch, None) ->
     GenerateSchema Unmarshal (StructOf fs') = (Some sch', None) ->
     Permutation (Required sch) (Required sch') /\
     (NoDup (map fieldName fs) -> Properties sch = Properties sch')).
Proof.
  intros Hperm. split.
  - rewrite !GenerateSchema_struct_builds. now rewrite Hperm.
  - intros sch sch' H H'.
    apply GenerateSchema_struct_ok in H. destruct H as (p & r & Hl & _ & -> & -> & _).
    apply GenerateSchema_struct_ok in H'. destruct H' as (p' & r' & Hl' & _ & -> & -> & _).
    split.
    + rewrite (fieldsLoop_required _ _ _ _ _ _ _ Hl), (fieldsLoop_required _ _ _ _ _ _ _ Hl').
      simpl. now apply requiredNames_Permutation.
    + intros Hnd. eapply fieldsLoop_Permutation; eauto.
Qed.

(** X14, on [struct { ID int `json:"id"`; Name string `json:"name"` }] and the
    struct with the two fields swapped: the required lists are [id; name]
    and [name; id], the properties are the same. *)
Lemma fields_can_be_reordered_witness :
  let id := mkField "ID" Examples.intT [("json", "id")] in
  let name := mkField "Name" Examples.stringT [("json", "name")] in
  exists sch sch',
    GenerateSchema exampleUnmarshal (StructOf [id; name]) = (Some sch, None) /\
    GenerateSchema exampleUnmarshal (StructOf [name; id]) = (Some sch', None) /\
    Required sch = ["id"; "name"] /\ Required sch' = ["name"; "id"] /\
    Properties sch = Properties sch'.
Proof.
  intros id name.
  exists (setRequired ["id"; "name"]
            (setProperties
               (<["name" := setType "string" emptySchema]>
                  (<["id" := setType "integer" emptySchema]> ∅))
               (setType "object" emptySchema))).
  exists (setRequired ["name"; "id"]
            (setProperties
               (<["id" := setType "integer" emptySchema]>
                  (<["name" := setType "string" emptySchema]> ∅))
               (setType "object" emptySchema))).
  split; [reflexivity|]. split; [reflexivity|].
  split; [reflexivity|]. split; [reflexivity|].
  refine (proj2 (proj2 (fields_can_be_reordered exampleUnmarshal
                          [id; name] [name; id] (perm_swap _ _ _))
                   _ _ eq_refl eq_refl) _).
  apply NoDup_cons. split; [|apply NoDup_singleton].
  intros H. apply list_elem_of_In in H. destruct H as [H|[]]. discriminate H.
Defined.

(** X15. The fields are taken from first to last, and a field adds to what the
    ones before it left. If the struct without its last field fails, the
    struct fails with the same error. If it builds and the last field fails,
    the struct fails with the error of that field. Otherwise the struct
    builds: its properties are those of the shorter struct with the node of
    the last field stored under its name, over an entry of that name if
    there is one, and its required list is that of the shorter struct, with
    the name appended unless the field is marked [omitempty]. *)
Theorem fields_are_added_one_by_one
    (Unmarshal : string -> any * option error)
    (fs : list (StructField Typ)) (f : StructField Typ) :
  (forall e post,
     GenerateSchema Unmarshal (StructOf fs) = (None, Some e) ->
     GenerateSchema Unmarshal (StructOf (fs ++ post)) = (None, Some e)) /\
  (forall sch,
     GenerateSchema Unmarshal (StructOf fs) = (Some sch, None) ->
     match fieldNode Unmarshal (GenerateSchema Unmarshal) f with
     | inr res => GenerateSchema Unmarshal (StructOf (fs ++ [f])) = res
     | inl child =>
         exists sch',
           GenerateSchema Unmarshal (StructOf (fs ++ [f])) = (Some sch', None) /\
           Properties sch' = <[fieldName f := child]> (Properties sch) /\
           Required sch' =
             (Required sch ++ if optional f then [] else [fieldName f])%list
     end).
Proof.
  split.
  - intros e post H. rewrite GenerateSchema_struct in H.
    rewrite GenerateSchema_struct, fieldsLoop_app.
    destruct (fieldsLoop Unmarshal (GenerateSchema Unmarshal) fs ∅ [])
      as [[p r]|x]; [discriminate H | exact H].
  - intros sch H. apply GenerateSchema_struct_ok in H.
    destruct H as (p & r & Hl & _ & -> & -> & _).
    destruct (fieldNode Unmarshal (GenerateSchema Unmarshal) f) as [child|res] eqn:Hn.
    + assert (Hl' : fieldsLoop Unmarshal (GenerateSchema Unmarshal) (fs ++ [f]) ∅ []
                    = inl (<[fieldName f := child]> p,
                           if optional f then r else (r ++ [fieldName f])%list)).
      { rewrite fieldsLoop_app, Hl, fieldsLoop_cons, Hn. reflexivity. }
      destruct (proj2 (GenerateSchema_struct_builds Unmarshal (fs ++ [f]))) as [sch' H'].
      { eapply fieldsLoop_inl_nodes; eauto. }
      exists sch'. split; [exact H'|].
      apply GenerateSchema_struct_ok in H'.
      destruct H' as (p' & r' & Hl2 & _ & -> & -> & _).
      rewrite Hl' in Hl2. injection Hl2 as <- <-.
      split; [reflexivity|]. destruct (optional f); [now rewrite app_nil_r | reflexivity].
    + apply GenerateSchema_struct_fail.
      rewrite fieldsLoop_app, Hl, fieldsLoop_cons, Hn. reflexivity.
Qed.

(** X16. The result of a struct depends on its fields only through the results
    of their types and through six keys of their tags: [json],
    [description], [enum], [minimum], [maximum] and [example]. Two structs
    whose fields have, one by one, types with the same result and the same
    values under these six keys give the same result, whatever the
    identifiers of the fields and the other keys of their tags: a [default]
    or a [format] tag is not read. *)
Theorem struct_depends_on_field_results_and_six_keys
    (Unmarshal : string -> any * option error)
    (fs fs' : list (StructField Typ)) :
  Forall2 (fun f f' =>
             GenerateSchema Unmarshal (Type_ f) = GenerateSchema Unmarshal (Type_ f') /\
             sameReadKeys (Tag f) (Tag f')) fs fs' ->
  GenerateSchema Unmarshal (StructOf fs) = GenerateSchema Unmarshal (StructOf fs').
Proof.
  intros H. rewrite !GenerateSchema_struct.
  now rewrite (fieldsLoop_sameReadKeys Unmarshal _ fs fs' H).
Qed.

(** X16, on [struct { Count [4]int `json:"count" default:"5" format:"int32"` }]
    and [struct { Total []int `json:"count"` }]. *)
Lemma struct_depends_on_field_results_and_six_keys_witness :
  GenerateSchema exampleUnmarshal
    (StructOf [mkField "Count" (ArrayOf 4 Examples.intT)
                 [("json", "count"); ("default", "5"); ("format", "int32")]])
  = GenerateSchema exampleUnmarshal
    (StructOf [mkField "Total" (SliceOf Examples.intT) [("json", "count")]]).
Proof.
  apply struct_depends_on_field_results_and_six_keys.
  constructor; [|constructor]. split; [reflexivity|].
  intros key Hk. unfold readKeys in Hk. simpl in Hk.
  destruct Hk as [<-|[<-|[<-|[<-|[<-|[<-|[]]]]]]]; reflexivity.
Defined.

(** ** The nodes of a result in the store *)

(** X17. Every node of a result was allocated by the call that returned it: what
    a walk from the returned pointer reaches, through items and properties,
    lies at an address that was free before the call, and reads back to a
    node of the tree the pure function returns. The result shares no node
    with what the store held before. *)
Theorem result_nodes_are_fresh
    (Unmarshal : string -> any * option error)
    (t : Typ) (h h' : store) (p q : ptr) (path : list (option string)) :
  GenerateSchemaM Unmarshal t h = ((Some p, None), h') ->
  walk h' p path q ->
  (length h <= q < length h')%nat /\
  exists sch c,
    GenerateSchema Unmarshal t = (Some sch, None) /\ inTree c sch /\ reads h' q c.
Proof.
  intros H Hq. split.
  - apply (tree_child_bounds h' p (length h) (length h') path q); [|exact Hq].
    apply (GenerateSchemaM_tree Unmarshal t). exact H.
  - pose proof (GenerateSchemaM_refines Unmarshal t h) as [_ Hr].
    rewrite H in Hr. simpl in Hr.
    destruct (GenerateSchema Unmarshal t) as [[sch|] [e|]]; try (destruct Hr; fail).
    destruct Hr as [_ Hs].
    destruct (walk_reads _ _ _ _ Hq sch Hs) as (c & Hin & Hc).
    exists sch, c. auto.
Qed.

(** X17, on [struct { name string; age int `json:"age,omitempty"` }] built in a
    store that holds one node: the result is at address 1, the node of [age]
    at address 5, of the six the store then has. *)
Lemma result_nodes_are_fresh_witness :
  let run := GenerateSchemaM exampleUnmarshal Examples.person [emptyNode] in
  fst run = (Some 1%nat, None) /\
  walk (snd run) 1%nat [Some "age"] 5%nat /\
  (length [emptyNode] <= 5 < length (snd run))%nat.
Proof.
  intros run.
  assert (Hq : walk (snd run) 1%nat [Some "age"] 5%nat).
  { eapply walk_cons; [reflexivity | reflexivity | apply walk_nil]. }
  split; [reflexivity|]. split; [exact Hq|].
  exact (proj1 (result_nodes_are_fresh exampleUnmarshal Examples.person
                  [emptyNode] (snd run) 1%nat 5%nat [Some "age"] eq_refl Hq)).
Defined.

(** X18. The result of a call is a tree: no node of it is reached from the
    returned pointer along two different paths, so no node is shared between
    two positions of the schema, and an assignment through one entry is not
    seen through another. *)
Theorem result_is_a_tree
    (Unmarshal : string -> any * option error)
    (t : Typ) (h h' : store) (p q : ptr) (path1 path2 : list (option string)) :
  GenerateSchemaM Unmarshal t h = ((Some p, None), h') ->
  walk h' p path1 q ->
  walk h' p path2 q ->
  path1 = path2.
Proof.
  intros H. apply (tree_unique h' p (length h) (length h')).
  apply (GenerateSchemaM_tree Unmarshal t). exact H.
Qed.

(** X18, on [Samples.inventory] built in the empty store: the node of the items
    of [tags] is at address 3, and the path to it is the only one. *)
Lemma result_is_a_tree_witness :
  let run := GenerateSchemaM exampleUnmarshal Samples.inventory [] in
  fst run = (Some 0%nat, None) /\
  walk (snd run) 0%nat [Some "tags"; None] 3%nat /\
  forall path, walk (snd run) 0%nat path 3%nat -> path = [Some "tags"; None].
Proof.
  intros run.
  assert (Hq : walk (snd run) 0%nat [Some "tags"; None] 3%nat).
  { eapply walk_cons; [reflexivity | reflexivity |].
    eapply walk_cons; [reflexivity | reflexivity | apply walk_nil]. }
  split; [reflexivity|]. split; [exact Hq|].
  intros path Hw.
  exact (result_is_a_tree exampleUnmarshal Samples.inventory [] (snd run)
           0%nat 3%nat path [Some "tags"; None] eq_refl Hw Hq).
Defined.
